(** * geokit [_core/util.py]: the matrix scaler and the kernel processor

    A shallow embedding of [scaleMatrix] and [KernelProcessor] from
    [src/geokit/_core/util.py], and the properties the design document states
    about them.

    Modelling conventions.
    - A numpy array of rank 2 is a record with its element type, its two
      extents and its cells (a list of rows).  Arrays the code allocates are
      built by [tabulate].
    - Floating-point cells are exact rationals ([Q]): rounding is not
      modelled, so equalities between floating-point cells are stated with
      [==] and mean equality of the ideal values.  Integer cells are rationals
      with an integral value; Python integers are unbounded ([Z]).
    - Exceptions are values of [exn]; code that can raise lives in the
      [result] monad.
    - A kernel is a total function of the window (and of the index pair when
      [passIndex] is set); a kernel that raises or mutates its window is
      outside the model. *)

From Stdlib Require Import List Arith ZArith QArith Qround Lia Bool String.
Import ListNotations.

Local Open Scope nat_scope.

(* ------------------------------------------------------------------ *)
(** ** Exceptions *)

Inductive exn : Type :=
| ValueError (msg : string)
| IndexError (msg : string)
| TypeError (msg : string)
| ZeroDivisionError (msg : string)
| GeoKitError (msg : string).

Inductive result (A : Type) : Type :=
| Ok (a : A)
| Raise (e : exn).

Arguments Ok {A} a.
Arguments Raise {A} e.

Definition bind {A B : Type} (m : result A) (k : A -> result B) : result B :=
  match m with
  | Ok a => k a
  | Raise e => Raise e
  end.

Notation "x <- m ;; k" := (bind m (fun x => k))
  (at level 61, m at next level, right associativity).

(** [for i in l: a = f(a, i)], stopping at the first exception. *)
Fixpoint foldM {A I : Type} (f : A -> I -> result A) (l : list I) (a : A)
  : result A :=
  match l with
  | [] => Ok a
  | i :: l' => a' <- f a i ;; foldM f l' a'
  end.

(** Python's [range(n)]. *)
Definition range (n : nat) : list nat := seq 0 n.

(** The two messages [scaleMatrix] raises (lines 196 and 222). *)
Definition NonFactorScaleError : exn :=
  GeoKitError "Matrix can only be scaled down by a factor of it's dimensions".

Definition InvalidScaleDirection : exn :=
  GeoKitError "Dimensions must be scaled in the same direction".

(* ------------------------------------------------------------------ *)
(** ** Numbers and arrays *)

Inductive dtype : Type := DInt | DFloat.

Definition dtype_eqb (a b : dtype) : bool :=
  match a, b with
  | DInt, DInt | DFloat, DFloat => true
  | _, _ => false
  end.

(** numpy's result type of an operation on two element types. *)
Definition promote (a b : dtype) : dtype :=
  match a, b with
  | DInt, DInt => DInt
  | _, _ => DFloat
  end.

(** A Python scalar. *)
Inductive pynum : Type :=
| PyInt (z : Z)
| PyFloat (q : Q).

Definition num_val (v : pynum) : Q :=
  match v with
  | PyInt z => inject_Z z
  | PyFloat q => q
  end.

Definition num_kind (v : pynum) : dtype :=
  match v with
  | PyInt _ => DInt
  | PyFloat _ => DFloat
  end.

(** Conversion of a float to an integer drops the fraction (towards 0). *)
Definition Qtrunc (q : Q) : Q :=
  if Qle_bool 0 q then inject_Z (Qfloor q) else inject_Z (Qceiling q).

(** The value a cell of type [dst] takes when a value held as [src] is
    stored in it. *)
Definition store (dst src : dtype) (q : Q) : Q :=
  match dst, src with
  | DInt, DFloat => Qtrunc q
  | _, _ => q
  end.

Definition astype (dst : dtype) (v : pynum) : Q :=
  store dst (num_kind v) (num_val v).

Record ndarray : Type := mkArray {
  dtype_of : dtype;
  shape0 : nat;
  shape1 : nat;
  data : list (list Q)
}.

Definition item (a : ndarray) (r c : nat) : Q :=
  nth c (nth r (data a) []) 0%Q.

(** A freshly allocated [r] x [c] array with cell [(i, j)] holding [f i j]. *)
Definition tabulate (d : dtype) (r c : nat) (f : nat -> nat -> Q) : ndarray :=
  mkArray d r c (map (fun i => map (f i) (seq 0 c)) (seq 0 r)).

Definition np_zeros (r c : nat) (d : dtype) : ndarray :=
  tabulate d r c (fun _ _ => 0%Q).

(** [np.ones((r, c), dtype=d) * v] *)
Definition np_ones_times (r c : nat) (d : dtype) (v : pynum) : ndarray :=
  tabulate (promote d (num_kind v)) r c (fun _ _ => (1 * num_val v)%Q).

(** Cells with their fractions reduced, for reading off concrete results. *)
Definition cells (a : ndarray) : list (list Q) := map (map Qred) (data a).

(* ------------------------------------------------------------------ *)
(** ** Slices and indices *)

(** A slice already adjusted to an axis: [start <= stop <= len] is not
    required, an empty slice has [stop <= start]. *)
Record slice : Type := mkSlice { start : nat; stop : nat; step : nat }.

(** Adjustment of one bound of a slice with a positive step to an axis of
    length [len]: a negative bound counts from the end, and the result is
    clipped to [0 .. len]. *)
Definition adjust (bound : Z) (len : nat) : nat :=
  if (bound <? 0)%Z
  then Z.to_nat (Z.max 0 (bound + Z.of_nat len))
  else Nat.min (Z.to_nat bound) len.

(** [start:stop:step] on an axis of length [len] ([None] is an omitted
    bound). *)
Definition py_slice (lo hi : option Z) (st len : nat) : slice :=
  mkSlice (match lo with Some b => adjust b len | None => 0 end)
          (match hi with Some b => adjust b len | None => len end)
          st.

Definition slice_len (s : slice) : nat :=
  if start s <? stop s then (stop s - start s - 1) / step s + 1 else 0.

Definition in_slice (s : slice) (i : nat) : bool :=
  (start s <=? i) && (i <? stop s) && ((i - start s) mod step s =? 0).

(** An integer index on an axis of length [len]. *)
Definition py_index (i : Z) (len : nat) : result nat :=
  let j := if (i <? 0)%Z then (i + Z.of_nat len)%Z else i in
  if (0 <=? j)%Z && (j <? Z.of_nat len)%Z then Ok (Z.to_nat j)
  else Raise (IndexError "index is out of bounds").

(** The one-cell slice selected by an integer index. *)
Definition at_index (i : nat) : slice := mkSlice i (S i) 1.

(** Broadcasting of an extent [src] to an extent [dst]. *)
Definition broadcastable (src dst : nat) : bool :=
  (src =? dst) || (src =? 1).

Definition bidx (src i : nat) : nat := if src =? 1 then 0 else i.

Definition steps_ok (ys xs : slice) : bool :=
  negb (step ys =? 0) && negb (step xs =? 0).

(** [a[ys, xs]] *)
Definition getitem (a : ndarray) (ys xs : slice) : result ndarray :=
  if steps_ok ys xs then
    Ok (tabulate (dtype_of a) (slice_len ys) (slice_len xs)
          (fun r c => item a (start ys + r * step ys) (start xs + c * step xs)))
  else Raise (ValueError "slice step cannot be zero").

(** [a[ys, xs] = src] *)
Definition setitem (a : ndarray) (ys xs : slice) (src : ndarray)
  : result ndarray :=
  if steps_ok ys xs then
    if broadcastable (shape0 src) (slice_len ys)
       && broadcastable (shape1 src) (slice_len xs)
    then
      Ok (tabulate (dtype_of a) (shape0 a) (shape1 a)
            (fun r c =>
               if in_slice ys r && in_slice xs c
               then store (dtype_of a) (dtype_of src)
                      (item src (bidx (shape0 src) ((r - start ys) / step ys))
                                (bidx (shape1 src) ((c - start xs) / step xs)))
               else item a r c))
    else Raise (ValueError "could not broadcast input array")
  else Raise (ValueError "slice step cannot be zero").

(** [a[r, c] = v] for in-range [r] and [c]. *)
Definition setitem_scalar (a : ndarray) (r c : nat) (v : pynum) : ndarray :=
  tabulate (dtype_of a) (shape0 a) (shape1 a)
    (fun i j => if (i =? r) && (j =? c) then astype (dtype_of a) v
                else item a i j).

(** [a += b] *)
Definition iadd (a b : ndarray) : result ndarray :=
  if dtype_eqb (dtype_of a) DInt && dtype_eqb (dtype_of b) DFloat
  then Raise (TypeError "cannot cast ufunc add output")
  else if broadcastable (shape0 b) (shape0 a)
          && broadcastable (shape1 b) (shape1 a)
  then
    Ok (tabulate (dtype_of a) (shape0 a) (shape1 a)
          (fun r c => (item a r c
                       + item b (bidx (shape0 b) r) (bidx (shape1 b) c))%Q))
  else Raise (ValueError "operands could not be broadcast together").

(** [a[ys, xs] *= k] for a float [k]. *)
Definition imul (a : ndarray) (ys xs : slice) (k : Q) : result ndarray :=
  match dtype_of a with
  | DInt => Raise (TypeError "cannot cast ufunc multiply output")
  | DFloat =>
      Ok (tabulate DFloat (shape0 a) (shape1 a)
            (fun r c => if in_slice ys r && in_slice xs c
                        then (item a r c * k)%Q else item a r c))
  end.

(** [a / k] for an integer [k]: always a float array. *)
Definition true_divide (a : ndarray) (k : Z) : ndarray :=
  tabulate DFloat (shape0 a) (shape1 a) (fun r c => (item a r c / inject_Z k)%Q).

(** Python's [/] on a number and an integer. *)
Definition py_div (a : Q) (b : Z) : result Q :=
  if (b =? 0)%Z then Raise (ZeroDivisionError "division by zero")
  else Ok (a / inject_Z b)%Q.

(** [np.concatenate((a, b), axis)] *)
Definition concatenate (a b : ndarray) (axis : nat) : result ndarray :=
  match axis with
  | 0 =>
      if shape1 a =? shape1 b then
        Ok (tabulate (promote (dtype_of a) (dtype_of b))
              (shape0 a + shape0 b) (shape1 a)
              (fun r c => if r <? shape0 a then item a r c
                          else item b (r - shape0 a) c))
      else Raise (ValueError "all the input array dimensions must match")
  | 1 =>
      if shape0 a =? shape0 b then
        Ok (tabulate (promote (dtype_of a) (dtype_of b))
              (shape0 a) (shape1 a + shape1 b)
              (fun r c => if c <? shape1 a then item a r c
                          else item b r (c - shape1 a)))
      else Raise (ValueError "all the input array dimensions must match")
  | _ => Raise (ValueError "axis is out of bounds")
  end.

(* ------------------------------------------------------------------ *)
(** ** [scaleMatrix] (lines 100-224) *)

(** The [scale] argument: one integer, or a pair [(yScale, xScale)]. *)
Inductive scale_arg : Type :=
| ScaleInt (s : Z)
| ScalePair (yScale xScale : Z).

(** Lines 174-177. *)
Definition unpack (scale : scale_arg) : Z * Z :=
  match scale with
  | ScalePair y x => (y, x)
  | ScaleInt s => (s, s)
  end.

(** Lines 185-188: the target is allocated and [mat] is written to each of
    the [yScale * xScale] strided sub-grids. *)
Definition scale_up (mat : ndarray) (yScale xScale : Z) : result ndarray :=
  let ys := Z.to_nat yScale in
  let xs := Z.to_nat xScale in
  let out := np_zeros (shape0 mat * ys) (shape1 mat * xs) (dtype_of mat) in
  foldM (fun out yo =>
    foldM (fun out xo =>
      setitem out (py_slice (Some (Z.of_nat yo)) None ys (shape0 out))
                  (py_slice (Some (Z.of_nat xo)) None xs (shape1 out)) mat)
      (range xs) out)
    (range ys) out.

(** Lines 200-204: the number of zero rows (columns) lenient mode appends to
    an axis of length [n] scaled down by [s]. *)
Definition lenient_pad (n : nat) (s : Z) : Z :=
  let pad := (s - Z.of_nat n mod s)%Z in
  if (pad =? s)%Z then 0%Z else pad.

(** Lines 207-208. *)
Definition pad_zeros (mat : ndarray) (yPad xPad : Z) : result ndarray :=
  mat <- (if (yPad >? 0)%Z
          then concatenate mat (np_zeros (Z.to_nat yPad) (shape1 mat) DFloat) 0
          else Ok mat) ;;
  if (xPad >? 0)%Z
  then concatenate mat (np_zeros (shape0 mat) (Z.to_nat xPad) DFloat) 1
  else Ok mat.

(** Lines 210-214: the sum of every block, then the division by the block
    size. *)
Definition block_sums (mat : ndarray) (yScale xScale : Z) : result ndarray :=
  let ys := Z.to_nat yScale in
  let xs := Z.to_nat xScale in
  let out := np_zeros (Z.to_nat (Z.of_nat (shape0 mat) / yScale))
                      (Z.to_nat (Z.of_nat (shape1 mat) / xScale)) DFloat in
  foldM (fun out yo =>
    foldM (fun out xo =>
      v <- getitem mat (py_slice (Some (Z.of_nat yo)) None ys (shape0 mat))
                       (py_slice (Some (Z.of_nat xo)) None xs (shape1 mat)) ;;
      iadd out v)
      (range xs) out)
    (range ys) out.

(** Lines 217-219, with the selections [out[:-1,-1]], [out[-1,:-1]] and
    [out[-1,-1]] as the code writes them. *)
Definition correct_edges (out : ndarray) (yScale xScale yPad xPad : Z)
  : result ndarray :=
  out <- (if (yPad >? 0)%Z then
            k <- py_div (inject_Z yScale) (yScale - yPad) ;;
            j <- py_index (-1) (shape1 out) ;;
            imul out (py_slice None (Some (-1)%Z) 1 (shape0 out)) (at_index j) k
          else Ok out) ;;
  out <- (if (xPad >? 0)%Z then
            k <- py_div (inject_Z xScale) (xScale - xPad) ;;
            i <- py_index (-1) (shape0 out) ;;
            imul out (at_index i) (py_slice None (Some (-1)%Z) 1 (shape1 out)) k
          else Ok out) ;;
  if (yPad >? 0)%Z then
    k1 <- py_div (inject_Z (yScale * xScale)) (yScale - yPad) ;;
    k <- py_div k1 (xScale - xPad) ;;
    i <- py_index (-1) (shape0 out) ;;
    j <- py_index (-1) (shape1 out) ;;
    imul out (at_index i) (at_index j) k
  else Ok out.

Definition scaleMatrix (mat : ndarray) (scale : scale_arg) (strict : bool)
  : result ndarray :=
  let '(yScale, xScale) := unpack scale in
  if (xScale =? 0)%Z && (yScale =? 0)%Z then Ok mat
  else if (xScale >? 0)%Z && (yScale >? 0)%Z then
    scale_up mat yScale xScale
  else if (xScale <? 0)%Z && (yScale <? 0)%Z then
    let xScale := (-1 * xScale)%Z in
    let yScale := (-1 * yScale)%Z in
    padded <-
      (if strict then
         if negb ((Z.of_nat (shape0 mat) mod yScale =? 0)%Z
                  && (Z.of_nat (shape1 mat) mod xScale =? 0)%Z)
         then Raise NonFactorScaleError
         else Ok (0%Z, 0%Z, mat)
       else
         let yPad := lenient_pad (shape0 mat) yScale in
         let xPad := lenient_pad (shape1 mat) xScale in
         mat <- pad_zeros mat yPad xPad ;;
         Ok (yPad, xPad, mat)) ;;
    let '(yPad, xPad, mat) := padded in
    out <- block_sums mat yScale xScale ;;
    let out := true_divide out (xScale * yScale) in
    correct_edges out yScale xScale yPad xPad
  else Raise InvalidScaleDirection.

(** The docstring's examples (lines 147-169). *)
Definition of_rows (d : dtype) (l : list (list Z)) : ndarray :=
  mkArray d (List.length l) (List.length (hd [] l)) (map (map inject_Z) l).

Definition doc_2x2 : ndarray := of_rows DInt [[1; 2]; [3; 4]]%Z.

Definition doc_4x4 : ndarray :=
  of_rows DInt [[1; 1; 1; 1]; [2; 2; 3; 3]; [4; 4; 5; 5]; [6; 7; 8; 9]]%Z.

Definition cells_of (r : result ndarray) : option (list (list Q)) :=
  match r with
  | Ok a => Some (cells a)
  | Raise _ => None
  end.

(* ------------------------------------------------------------------ *)
(** ** [KernelProcessor] (lines 227-298) *)

(** What the decorated function is called with: the window, and the pair
    [(xi, yi)] when [passIndex] is set. *)
Definition kernel_fn : Type := ndarray -> option (nat * nat) -> pynum.

(** Lines 283-284. *)
Definition pad_matrix (size : nat) (edgeValue : pynum) (matrix : ndarray)
  : result ndarray :=
  let yN := shape0 matrix in
  let xN := shape1 matrix in
  let paddedMatrix :=
    np_ones_times (yN + 2 * size) (xN + 2 * size) (dtype_of matrix) edgeValue in
  setitem paddedMatrix
    (py_slice (Some (Z.of_nat size)) (Some (- Z.of_nat size)%Z) 1
       (shape0 paddedMatrix))
    (py_slice (Some (Z.of_nat size)) (Some (- Z.of_nat size)%Z) 1
       (shape1 paddedMatrix))
    matrix.

(** Line 290: [paddedMatrix[yi:2*size+yi+1, xi:2*size+xi+1]]. *)
Definition sliced (size : nat) (paddedMatrix : ndarray) (yi xi : nat)
  : result ndarray :=
  getitem paddedMatrix
    (py_slice (Some (Z.of_nat yi)) (Some (Z.of_nat (2 * size + yi + 1))) 1
       (shape0 paddedMatrix))
    (py_slice (Some (Z.of_nat xi)) (Some (Z.of_nat (2 * size + xi + 1))) 1
       (shape1 paddedMatrix)).

Definition KernelProcessor (size : nat) (edgeValue : pynum)
    (outputType : option dtype) (passIndex : bool)
    (kernel : kernel_fn) (matrix : ndarray) : result ndarray :=
  let yN := shape0 matrix in
  let xN := shape1 matrix in
  paddedMatrix <- pad_matrix size edgeValue matrix ;;
  let output :=
    np_zeros yN xN
      (match outputType with None => dtype_of matrix | Some t => t end) in
  foldM (fun output yi =>
    foldM (fun output xi =>
      slicedMatrix <- sliced size paddedMatrix yi xi ;;
      if passIndex
      then Ok (setitem_scalar output yi xi (kernel slicedMatrix (Some (xi, yi))))
      else Ok (setitem_scalar output yi xi (kernel slicedMatrix None)))
      (range xN) output)
    (range yN) output.

(** The kernel that returns the value at the centre of its window. *)
Definition center_value (w : ndarray) (_ : option (nat * nat)) : pynum :=
  PyFloat (item w (shape0 w / 2) (shape1 w / 2)).


(* ------------------------------------------------------------------ *)
(** ** Specification vocabulary *)

(** [out] has the element type of [mat] and [ys] x [xs] times its extents. *)
Definition up_frame (mat : ndarray) (ys xs : nat) (out : ndarray) : Prop :=
  dtype_of out = dtype_of mat /\
  shape0 out = shape0 mat * ys /\ shape1 out = shape1 mat * xs.

(** [f 0 + f 1 + ... + f (n-1)], added in that order. *)
Fixpoint Qsum_upto (n : nat) (f : nat -> Q) : Q :=
  match n with
  | 0 => 0%Q
  | S k => (Qsum_upto k f + f k)%Q
  end.

(** What the loops of lines 211-213 leave in cell [(r, c)]. *)
Definition block_total (mat : ndarray) (ys xs r c : nat) : Q :=
  Qsum_upto ys (fun yo =>
    Qsum_upto xs (fun xo => item mat (yo + r * ys) (xo + c * xs))).

(** [out] is a float array of [n] x [m] cells. *)
Definition down_frame (n m : nat) (out : ndarray) : Prop :=
  dtype_of out = DFloat /\ shape0 out = n /\ shape1 out = m.

(** The design document's words: the cells of the [h] x [w] block whose
    top-left corner is [(r0, c0)], and the arithmetic mean of a list. *)
Definition block_values (mat : ndarray) (r0 c0 h w : nat) : list Q :=
  flat_map (fun i => map (fun j => item mat (r0 + i) (c0 + j)) (seq 0 w))
           (seq 0 h).

Definition Qlist_sum (l : list Q) : Q := fold_right Qplus 0%Q l.

Definition mean (l : list Q) : Q :=
  (Qlist_sum l / inject_Z (Z.of_nat (List.length l)))%Q.

Definition block_mean (mat : ndarray) (ys xs r c : nat) : Q :=
  mean (block_values mat (r * ys) (c * xs) ys xs).

(** The factor lines 217-219 apply to cell [(r, c)] of an [n] x [m] result:
    line 217 acts on the last column above the corner, line 218 on the last
    row left of the corner, line 219 on the corner. *)
Definition applied_factor (n m : nat) (yScale xScale yPad xPad : Z)
    (r c : nat) : Q :=
  ((if (yPad >? 0)%Z && (r <? n - 1) && (c =? m - 1)
    then inject_Z yScale / inject_Z (yScale - yPad) else 1)
   * (if (xPad >? 0)%Z && (r =? n - 1) && (c <? m - 1)
      then inject_Z xScale / inject_Z (xScale - xPad) else 1)
   * (if (yPad >? 0)%Z && (r =? n - 1) && (c =? m - 1)
      then inject_Z (yScale * xScale) / inject_Z (yScale - yPad)
           / inject_Z (xScale - xPad)
      else 1))%Q.

(** Exceptions of the library itself, as opposed to Python's and numpy's. *)
Definition is_geokit (e : exn) : bool :=
  match e with
  | GeoKitError _ => true
  | _ => false
  end.

Definition no_geokit {A : Type} (r : result A) : Prop :=
  match r with
  | Ok _ => True
  | Raise e => is_geokit e = false
  end.


(** The element type of the result of [KernelProcessor]. *)
Definition kernel_dtype (outputType : option dtype) (matrix : ndarray) : dtype :=
  match outputType with
  | None => dtype_of matrix
  | Some t => t
  end.

(** [out] has the element type and the extents [KernelProcessor] gives its
    result for [matrix]. *)
Definition kernel_frame (outputType : option dtype) (matrix out : ndarray)
  : Prop :=
  dtype_of out = kernel_dtype outputType matrix /\
  shape0 out = shape0 matrix /\ shape1 out = shape1 matrix.

(** The index argument of the kernel call (lines 292-293). *)
Definition kernel_index (passIndex : bool) (yi xi : nat) : option (nat * nat) :=
  if passIndex then Some (xi, yi) else None.

(** One factor strictly positive, the other strictly negative. *)
Definition mixed_sign (yScale xScale : Z) : Prop :=
  (0 < yScale /\ xScale < 0)%Z \/ (yScale < 0 /\ 0 < xScale)%Z.

(** Exactly one factor is zero. *)
Definition one_zero (yScale xScale : Z) : Prop :=
  (yScale = 0 /\ xScale <> 0)%Z \/ (yScale <> 0 /\ xScale = 0)%Z.

(** The docstring's intent for the lenient mode (lines 127-133): the mean of
    the cells of a block that belong to the matrix, the padded zeros left
    out. *)
Definition real_block_mean (mat : ndarray) (ys xs r c : nat) : Q :=
  mean (block_values mat (r * ys) (c * xs)
          (Nat.min ys (shape0 mat - r * ys))
          (Nat.min xs (shape1 mat - c * xs))).

(** The design document's boundary correction of an [n] x [m] result: the
    last row left of the corner by the row ratio when rows were padded, the
    last column above the corner by the column ratio when columns were
    padded, the corner by the product when both were. *)
Definition documented_factor (n m : nat) (yScale xScale yPad xPad : Z)
    (r c : nat) : Q :=
  ((if (yPad >? 0)%Z && (r =? n - 1) && (c <? m - 1)
    then inject_Z yScale / inject_Z (yScale - yPad) else 1)
   * (if (xPad >? 0)%Z && (r <? n - 1) && (c =? m - 1)
      then inject_Z xScale / inject_Z (xScale - xPad) else 1)
   * (if (yPad >? 0)%Z && (xPad >? 0)%Z && (r =? n - 1) && (c =? m - 1)
      then inject_Z (yScale * xScale)
           / (inject_Z (yScale - yPad) * inject_Z (xScale - xPad))
      else 1))%Q.

(** A matrix of 5 rows and 4 columns: the docstring's 4 x 4 matrix and one
    more row. *)
Definition rows_5x4 : ndarray :=
  of_rows DInt
    [[1; 1; 1; 1]; [2; 2; 3; 3]; [4; 4; 5; 5]; [6; 7; 8; 9]; [2; 4; 6; 8]]%Z.

Definition single_5 : ndarray := of_rows DInt [[5]]%Z.

(** Reduced fractions of a function of the cell position, laid out as an
    [n] x [m] grid. *)
Definition grid (n m : nat) (f : nat -> nat -> Q) : list (list Q) :=
  cells (tabulate DFloat n m f).

(* ------------------------------------------------------------------ *)
(** ** [drawImage] (lines 385-454): the matrix and the extent it draws *)

(** The [bounds] argument: a tuple [(xMin, yMin, xMax, yMax)], or an object
    with these four numbers in its [xyXY] attribute (lines 428-431). *)
Inductive bounds_arg : Type :=
| BoundsTuple (b : Q * Q * Q * Q)
| BoundsExtent (xyXY : Q * Q * Q * Q).

(** [data[::-1,:]] (line 437). *)
Definition reverse_rows (data : ndarray) : ndarray :=
  tabulate (dtype_of data) (shape0 data) (shape1 data)
    (fun r c => item data (shape0 data - 1 - r) c).

(** Python's truth value of the [scaling] argument (line 440): [None] and
    the integer 0 are false, a tuple of two numbers is true. *)
Definition truthy (scaling : option scale_arg) : bool :=
  match scaling with
  | None => false
  | Some (ScaleInt s) => negb (s =? 0)%Z
  | Some (ScalePair _ _) => true
  end.

(** Lines 423-441: the arguments [data] and [extent] of the call of
    [imshow] on line 441. The figure, the axes and the colour bar are left
    out. *)
Definition drawImage_args (data : ndarray) (bounds : option bounds_arg)
    (scaling : option scale_arg) (yAtTop : bool)
  : result (ndarray * (Q * Q * Q * Q)) :=
  let '(xMin, yMin, xMax, yMax) :=
    match bounds with
    | None => (0%Q, 0%Q, inject_Z (Z.of_nat (shape1 data)),
               inject_Z (Z.of_nat (shape0 data)))
    | Some (BoundsTuple b) => b
    | Some (BoundsExtent xyXY) => xyXY
    end in
  let extent := (xMin, xMax, yMin, yMax) in
  let data := if yAtTop then data else reverse_rows data in
  data <- (match scaling with
           | Some s => if truthy scaling then scaleMatrix data s false
                       else Ok data
           | None => Ok data
           end) ;;
  Ok (data, extent).

(* ------------------------------------------------------------------ *)
(** ** [isVector] and [isRaster] (lines 40-94) *)

(** What the tests ask of their argument: a [gdal.Dataset] answers
    [GetLayerCount()] (with a number or an exception); for a string,
    [gdal.IdentifyDriver] finds a driver, whose metadata is a dictionary, or
    returns [None]; anything else is neither. *)
Inductive gdal_source : Type :=
| Dataset (GetLayerCount : result Z)
| PathStr (driver_metadata : option (list (string * string)))
| OtherSource.

(** [meta.get(key, False) == "YES"] on a dictionary given as the list of its
    items. *)
Fixpoint meta_is_yes (meta : list (string * string)) (key : string) : bool :=
  match meta with
  | [] => false
  | (k, v) :: rest =>
      if String.eqb k key then String.eqb v "YES" else meta_is_yes rest key
  end.

(** How a test ends: with an answer, with the [AttributeError] of calling
    [GetMetadata] on [None], or with the exception of [GetLayerCount]. *)
Inductive outcome : Type :=
| Returns (b : bool)
| AttributeError (msg : string)
| Propagates (e : exn).

Definition NoneType_GetMetadata : outcome :=
  AttributeError "'NoneType' object has no attribute 'GetMetadata'".

Definition isVector (source : gdal_source) : outcome :=
  match source with
  | Dataset GetLayerCount =>
      match GetLayerCount with
      | Ok n => if (n >? 0)%Z then Returns true else Returns false
      | Raise e => Propagates e
      end
  | PathStr d =>
      match d with
      | Some meta =>
          if meta_is_yes meta "DCAP_VECTOR" then Returns true
          else Returns false
      | None => NoneType_GetMetadata
      end
  | OtherSource => Returns false
  end.

Definition isRaster (source : gdal_source) : outcome :=
  match source with
  | Dataset GetLayerCount =>
      match GetLayerCount with
      | Ok n => if (n =? 0)%Z then Returns true else Returns false
      | Raise _ => Returns false
      end
  | PathStr d =>
      match d with
      | Some meta =>
          if meta_is_yes meta "DCAP_RASTER" then Returns true
          else Returns false
      | None => NoneType_GetMetadata
      end
  | OtherSource => Returns false
  end.

(* ------------------------------------------------------------------ *)
(** ** Further vocabulary *)

(** The sum of all the cells of a matrix. *)
Definition matrix_total (mat : ndarray) : Q :=
  Qsum_upto (shape0 mat) (fun r =>
    Qsum_upto (shape1 mat) (fun c => item mat r c)).


(** [ceil(len / s)] for a positive [s]. *)
Definition ceil_div (len s : nat) : nat := (len + s - 1) / s.

(* ================================================================== *)
(** * Properties *)

(* ------------------------------------------------------------------ *)
(** ** Arrays, loops and slices *)

Lemma item_tabulate (d : dtype) (R C : nat) (f : nat -> nat -> Q) (r c : nat) :
  r < R -> c < C -> item (tabulate d R C f) r c = f r c.
Proof.
  intros Hr Hc. unfold item, tabulate. cbn [data].
  rewrite (nth_indep _ [] (map (f 0) (seq 0 C))) by (now rewrite length_map, length_seq).
  rewrite (map_nth (fun i => map (f i) (seq 0 C)) (seq 0 R) 0 r).
  rewrite seq_nth by assumption. cbn [Nat.add].
  rewrite (nth_indep _ 0%Q (f r 0)) by (now rewrite length_map, length_seq).
  rewrite (map_nth (f r) (seq 0 C) 0 c).
  now rewrite seq_nth.
Qed.

Lemma tabulate_ext (d : dtype) (R C : nat) (f g : nat -> nat -> Q) :
  (forall r c, r < R -> c < C -> f r c = g r c) ->
  tabulate d R C f = tabulate d R C g.
Proof.
  intros H. unfold tabulate. f_equal.
  apply map_ext_in. intros r Hr. apply in_seq in Hr.
  apply map_ext_in. intros c Hc. apply in_seq in Hc.
  apply H; lia.
Qed.

Lemma foldM_seq_inv {A : Type} (f : A -> nat -> result A)
    (P : nat -> A -> Prop) (n s : nat) (a : A) :
  P s a ->
  (forall i x, s <= i < s + n -> P i x -> exists y, f x i = Ok y /\ P (S i) y) ->
  exists y, foldM f (seq s n) a = Ok y /\ P (s + n) y.
Proof.
  revert s a. induction n as [|n IH]; intros s a H0 Hstep.
  - exists a. now rewrite Nat.add_0_r.
  - cbn [seq foldM].
    destruct (Hstep s a ltac:(lia) H0) as (y & Hy & HP).
    rewrite Hy. cbn [bind].
    destruct (IH (S s) y HP) as (z & Hz & HPz).
    + intros i x Hi. apply Hstep. lia.
    + exists z. split; [exact Hz|]. now rewrite <- Nat.add_succ_comm.
Qed.

(** The loop rule used throughout: an invariant indexed by the number of
    iterations done. *)
Lemma foldM_range_inv {A : Type} (f : A -> nat -> result A)
    (P : nat -> A -> Prop) (n : nat) (a : A) :
  P 0 a ->
  (forall i x, i < n -> P i x -> exists y, f x i = Ok y /\ P (S i) y) ->
  exists y, foldM f (range n) a = Ok y /\ P n y.
Proof.
  intros H0 Hstep. unfold range.
  apply (foldM_seq_inv f P n 0 a H0).
  intros i x Hi. apply Hstep. lia.
Qed.

Lemma store_same (d : dtype) (q : Q) : store d d q = q.
Proof. now destruct d. Qed.


Lemma Qmult_1_l_eq (q : Q) : (1 * q)%Q = q.
Proof. destruct q as [n p]. now destruct n. Qed.

Lemma adjust_of_nat (o len : nat) : adjust (Z.of_nat o) len = Nat.min o len.
Proof.
  unfold adjust. destruct (Z.ltb_spec (Z.of_nat o) 0); [lia|].
  now rewrite Nat2Z.id.
Qed.

Lemma bidx_lt (n i : nat) : i < n -> bidx n i = i.
Proof.
  intros H. unfold bidx. destruct (Nat.eqb_spec n 1); lia.
Qed.

Lemma broadcastable_refl (n : nat) : broadcastable n n = true.
Proof. unfold broadcastable. now rewrite Nat.eqb_refl. Qed.

(** *** The strided slice [o::s] on an axis of length [n * s] *)

Section Strided.
Variables (n s o : nat).
Hypothesis Hos : o < s.

Let sl : slice := py_slice (Some (Z.of_nat o)) None s (n * s).

Lemma strided_start : 0 < n -> start sl = o.
Proof.
  intros Hn. subst sl. cbn [py_slice start]. rewrite adjust_of_nat. nia.
Qed.

Lemma strided_len : slice_len sl = n.
Proof.
  subst sl. unfold slice_len. cbn [py_slice start stop step].
  rewrite adjust_of_nat.
  destruct n as [|k].
  - cbn. reflexivity.
  - assert (Hmin : Nat.min o (S k * s) = o) by nia.
    rewrite Hmin.
    destruct (Nat.ltb_spec o (S k * s)) as [_|Hge]; [|nia].
    assert (Hq : (S k * s - o - 1) / s = k).
    { symmetry. apply (Nat.div_unique _ _ _ (s - o - 1)); nia. }
    rewrite Hq. lia.
Qed.

Lemma strided_in (r : nat) :
  r < n * s -> in_slice sl r = (r mod s =? o).
Proof.
  intros Hr. assert (Hn : 0 < n) by nia.
  unfold in_slice. rewrite (strided_start Hn).
  subst sl. cbn [py_slice stop step].
  pose proof (Nat.div_mod_eq r s) as Hdm.
  pose proof (Nat.mod_upper_bound r s ltac:(lia)) as Hub.
  destruct (Nat.eqb_spec (r mod s) o) as [He|Hne].
  - assert (Hle : o <= r) by nia.
    assert (Hm : (r - o) mod s = 0).
    { symmetry. apply (Nat.mod_unique _ _ (r / s)); nia. }
    rewrite Hm. cbn [Nat.eqb].
    destruct (Nat.leb_spec o r); [|lia].
    destruct (Nat.ltb_spec r (n * s)); [reflexivity|lia].
  - destruct (Nat.leb_spec o r) as [Hle|]; [|reflexivity].
    destruct (Nat.ltb_spec r (n * s)); [|reflexivity].
    cbn [andb].
    destruct (Nat.eqb_spec ((r - o) mod s) 0) as [Hz|]; [|reflexivity].
    exfalso. apply Hne.
    pose proof (Nat.div_mod_eq (r - o) s) as Hdm'.
    symmetry. apply (Nat.mod_unique _ _ ((r - o) / s)); nia.
Qed.

Lemma strided_pos (r : nat) :
  r < n * s -> r mod s = o -> (r - start sl) / s = r / s.
Proof.
  intros Hr Hm. assert (Hn : 0 < n) by nia.
  rewrite (strided_start Hn).
  pose proof (Nat.div_mod_eq r s) as Hdm.
  symmetry. apply (Nat.div_unique _ _ _ 0); nia.
Qed.
End Strided.

(* ------------------------------------------------------------------ *)
(** ** Scaling up *)

Section ScaleUp.
Variables (mat : ndarray) (ys xs : nat).
Hypotheses (Hys : 0 < ys) (Hxs : 0 < xs).

Let R := shape0 mat.
Let C := shape1 mat.

(** One pass of line 188. *)
Lemma scale_up_step (out : ndarray) (yo xo : nat) :
  up_frame mat ys xs out -> yo < ys -> xo < xs ->
  setitem out (py_slice (Some (Z.of_nat yo)) None ys (shape0 out))
              (py_slice (Some (Z.of_nat xo)) None xs (shape1 out)) mat
  = Ok (tabulate (dtype_of mat) (R * ys) (C * xs)
          (fun r c => if (r mod ys =? yo) && (c mod xs =? xo)
                      then item mat (r / ys) (c / xs) else item out r c)).
Proof.
  intros (Hd & H0 & H1) Hyo Hxo. unfold setitem, steps_ok.
  cbn [py_slice step].
  destruct (Nat.eqb_spec ys 0); [lia|].
  destruct (Nat.eqb_spec xs 0); [lia|].
  cbn [negb andb].
  rewrite H0, H1, Hd.
  change (mkSlice (adjust (Z.of_nat yo) (shape0 mat * ys)) (shape0 mat * ys) ys)
    with (py_slice (Some (Z.of_nat yo)) None ys (shape0 mat * ys)).
  change (mkSlice (adjust (Z.of_nat xo) (shape1 mat * xs)) (shape1 mat * xs) xs)
    with (py_slice (Some (Z.of_nat xo)) None xs (shape1 mat * xs)).
  rewrite !strided_len by assumption.
  rewrite !broadcastable_refl. cbn [andb].
  f_equal. apply tabulate_ext. intros r c Hr Hc.
  rewrite !strided_in by assumption.
  destruct (Nat.eqb_spec (r mod ys) yo) as [Hy|]; [|reflexivity].
  destruct (Nat.eqb_spec (c mod xs) xo) as [Hx|]; [|reflexivity].
  cbn [andb]. rewrite store_same.
  cbn [py_slice step].
  change (mkSlice (adjust (Z.of_nat yo) (shape0 mat * ys)) (shape0 mat * ys) ys)
    with (py_slice (Some (Z.of_nat yo)) None ys (shape0 mat * ys)).
  change (mkSlice (adjust (Z.of_nat xo) (shape1 mat * xs)) (shape1 mat * xs) xs)
    with (py_slice (Some (Z.of_nat xo)) None xs (shape1 mat * xs)).
  rewrite !strided_pos by assumption.
  rewrite !bidx_lt by (apply Nat.Div0.div_lt_upper_bound; lia).
  reflexivity.
Qed.

(** Lines 185-188: the loops end normally and replicate each cell over a
    block. *)
Lemma scale_up_spec :
  exists out,
    scale_up mat (Z.of_nat ys) (Z.of_nat xs) = Ok out /\
    up_frame mat ys xs out /\
    forall r c, r < R * ys -> c < C * xs ->
                item out r c = item mat (r / ys) (c / xs).
Proof.
  unfold scale_up. rewrite !Nat2Z.id.
  set (out0 := np_zeros (shape0 mat * ys) (shape1 mat * xs) (dtype_of mat)).
  set (body := fun (out : ndarray) (yo : nat) => foldM _ (range xs) out).
  destruct (foldM_range_inv body
    (fun i out => up_frame mat ys xs out /\
       forall r c, r < R * ys -> c < C * xs -> r mod ys < i ->
                   item out r c = item mat (r / ys) (c / xs))
    ys out0) as (out & Hout & Hfr & Hcells).
  - split; [now repeat split|]. intros; lia.
  - intros yo a Hyo (Hfr & Hdone). unfold body.
    destruct (foldM_range_inv
      (fun (out : ndarray) (xo : nat) =>
         setitem out (py_slice (Some (Z.of_nat yo)) None ys (shape0 out))
                     (py_slice (Some (Z.of_nat xo)) None xs (shape1 out)) mat)
      (fun j out => up_frame mat ys xs out /\
         forall r c, r < R * ys -> c < C * xs ->
                     r mod ys < yo \/ (r mod ys = yo /\ c mod xs < j) ->
                     item out r c = item mat (r / ys) (c / xs))
      xs a) as (b & Hb & Hfrb & Hcb).
    + split; [exact Hfr|]. intros r c Hr Hc [Hlt|[_ Hlt]]; [|lia].
      now apply Hdone.
    + intros xo x Hxo (Hfrx & Hdx).
      rewrite (scale_up_step x yo xo Hfrx Hyo Hxo).
      eexists; split; [reflexivity|]. split; [now repeat split|].
      intros r c Hr Hc Hcase. rewrite item_tabulate by assumption.
      destruct (Nat.eqb_spec (r mod ys) yo) as [Hy|Hy];
        destruct (Nat.eqb_spec (c mod xs) xo) as [Hx|Hx];
        cbn [andb]; try reflexivity; apply Hdx; try assumption; lia.
    + exists b. split; [exact Hb|]. split; [exact Hfrb|].
      intros r c Hr Hc Hlt. apply Hcb; try assumption.
      pose proof (Nat.mod_upper_bound c xs ltac:(lia)). lia.
  - exists out. split; [exact Hout|]. split; [exact Hfr|].
    intros r c Hr Hc. apply Hcells; try assumption.
    apply Nat.mod_upper_bound. lia.
Qed.
End ScaleUp.

(* ------------------------------------------------------------------ *)
(** ** Block sums *)

Lemma Qsum_upto_ext (n : nat) (f g : nat -> Q) :
  (forall i, i < n -> f i == g i) -> Qsum_upto n f == Qsum_upto n g.
Proof.
  induction n as [|k IH]; intros H; cbn [Qsum_upto]; [reflexivity|].
  rewrite IH by (intros; apply H; lia).
  rewrite (H k) by lia. reflexivity.
Qed.

Lemma Qsum_upto_const (n : nat) (q : Q) :
  Qsum_upto n (fun _ => q) == inject_Z (Z.of_nat n) * q.
Proof.
  induction n as [|k IH]; cbn [Qsum_upto].
  - cbn. ring.
  - rewrite IH, Nat2Z.inj_succ. unfold Z.succ. rewrite inject_Z_plus. ring.
Qed.

Lemma of_nat_div_mul (n s : nat) :
  0 < s -> Z.to_nat (Z.of_nat (n * s) / Z.of_nat s) = n.
Proof.
  intros Hs. rewrite Nat2Z.inj_mul, Z.div_mul by lia. apply Nat2Z.id.
Qed.

Section BlockSums.
Variables (mat : ndarray) (ys xs n m : nat).
Hypotheses (Hys : 0 < ys) (Hxs : 0 < xs).
Hypotheses (H0 : shape0 mat = n * ys) (H1 : shape1 mat = m * xs).

(** Line 213, the right-hand side [mat[yo::yScale, xo::xScale]]. *)
Lemma strided_view (yo xo : nat) :
  yo < ys -> xo < xs ->
  getitem mat (py_slice (Some (Z.of_nat yo)) None ys (shape0 mat))
              (py_slice (Some (Z.of_nat xo)) None xs (shape1 mat))
  = Ok (tabulate (dtype_of mat) n m
          (fun r c => item mat (yo + r * ys) (xo + c * xs))).
Proof.
  intros Hyo Hxo. unfold getitem, steps_ok. cbn [py_slice step].
  destruct (Nat.eqb_spec ys 0); [lia|].
  destruct (Nat.eqb_spec xs 0); [lia|].
  cbn [negb andb]. rewrite H0, H1.
  change (mkSlice (adjust (Z.of_nat yo) (n * ys)) (n * ys) ys)
    with (py_slice (Some (Z.of_nat yo)) None ys (n * ys)).
  change (mkSlice (adjust (Z.of_nat xo) (m * xs)) (m * xs) xs)
    with (py_slice (Some (Z.of_nat xo)) None xs (m * xs)).
  rewrite !strided_len by assumption.
  f_equal. apply tabulate_ext. intros r c Hr Hc.
  rewrite !strided_start by lia. reflexivity.
Qed.

(** Line 213. *)
Lemma block_sums_step (out : ndarray) (yo xo : nat) :
  down_frame n m out -> yo < ys -> xo < xs ->
  (v <- getitem mat (py_slice (Some (Z.of_nat yo)) None ys (shape0 mat))
                    (py_slice (Some (Z.of_nat xo)) None xs (shape1 mat)) ;;
   iadd out v)
  = Ok (tabulate DFloat n m
          (fun r c => (item out r c + item mat (yo + r * ys) (xo + c * xs))%Q)).
Proof.
  intros (Hd & Hr & Hc) Hyo Hxo.
  rewrite strided_view by assumption. cbn [bind].
  unfold iadd. rewrite Hd, Hr, Hc. cbn [dtype_eqb andb tabulate shape0 shape1].
  rewrite !broadcastable_refl. cbn [andb].
  f_equal. apply tabulate_ext. intros r c Hrn Hcm.
  rewrite !bidx_lt by assumption.
  fold (tabulate (dtype_of mat) n m
          (fun r c => item mat (yo + r * ys) (xo + c * xs))).
  now rewrite item_tabulate.
Qed.

(** Lines 210-213: the loops end normally with the total of each block. *)
Lemma block_sums_spec :
  exists out,
    block_sums mat (Z.of_nat ys) (Z.of_nat xs) = Ok out /\
    down_frame n m out /\
    forall r c, r < n -> c < m -> item out r c == block_total mat ys xs r c.
Proof.
  unfold block_sums. rewrite !Nat2Z.id, H0, H1.
  rewrite !of_nat_div_mul by assumption. rewrite <- H0, <- H1.
  set (body := fun (out : ndarray) (yo : nat) => foldM _ (range xs) out).
  destruct (foldM_range_inv body
    (fun i out => down_frame n m out /\
       forall r c, r < n -> c < m ->
         item out r c ==
         Qsum_upto i (fun yo =>
           Qsum_upto xs (fun xo => item mat (yo + r * ys) (xo + c * xs))))
    ys (np_zeros n m DFloat)) as (out & Hout & Hfr & Hcells).
  - split; [now repeat split|].
    intros r c Hr Hc. unfold np_zeros. rewrite item_tabulate by assumption.
    reflexivity.
  - intros yo a Hyo (Hfr & Hdone). unfold body.
    destruct (foldM_range_inv
      (fun (out : ndarray) (xo : nat) =>
         v <- getitem mat (py_slice (Some (Z.of_nat yo)) None ys (shape0 mat))
                (py_slice (Some (Z.of_nat xo)) None xs (shape1 mat)) ;;
         iadd out v)
      (fun j out => down_frame n m out /\
         forall r c, r < n -> c < m ->
           item out r c ==
           item a r c
           + Qsum_upto j (fun xo => item mat (yo + r * ys) (xo + c * xs)))
      xs a) as (b & Hb & Hfrb & Hcb).
    + split; [exact Hfr|]. intros r c Hr Hc. cbn [Qsum_upto]. ring.
    + intros xo x Hxo (Hfrx & Hdx).
      rewrite (block_sums_step x yo xo Hfrx Hyo Hxo).
      eexists; split; [reflexivity|]. split; [now repeat split|].
      intros r c Hr Hc. rewrite item_tabulate by assumption.
      rewrite (Hdx r c Hr Hc). cbn [Qsum_upto]. ring.
    + exists b. split; [exact Hb|]. split; [exact Hfrb|].
      intros r c Hr Hc. rewrite (Hcb r c Hr Hc), (Hdone r c Hr Hc).
      cbn [Qsum_upto]. reflexivity.
  - exists out. split; [exact Hout|]. split; [exact Hfr|].
    intros r c Hr Hc. apply Hcells; assumption.
Qed.
End BlockSums.

(** *** The block mean of the design document is the block total divided by
    the block size *)

Lemma Qlist_sum_app (l1 l2 : list Q) :
  Qlist_sum (l1 ++ l2) == Qlist_sum l1 + Qlist_sum l2.
Proof.
  unfold Qlist_sum. induction l1 as [|q l IH]; cbn [fold_right app].
  - ring.
  - rewrite IH. ring.
Qed.

Lemma Qlist_sum_map_seq (n : nat) (f : nat -> Q) :
  Qlist_sum (map f (seq 0 n)) == Qsum_upto n f.
Proof.
  induction n as [|k IH]; [reflexivity|].
  rewrite seq_S, map_app, Qlist_sum_app, IH. cbn. ring.
Qed.

Lemma Qlist_sum_flat_map_seq (n : nat) (F : nat -> list Q) :
  Qlist_sum (flat_map F (seq 0 n)) == Qsum_upto n (fun i => Qlist_sum (F i)).
Proof.
  induction n as [|k IH]; [reflexivity|].
  rewrite seq_S, flat_map_app, Qlist_sum_app, IH. cbn [flat_map Nat.add].
  rewrite app_nil_r. reflexivity.
Qed.

Lemma block_values_length (mat : ndarray) (r0 c0 h w : nat) :
  List.length (block_values mat r0 c0 h w) = h * w.
Proof.
  unfold block_values. generalize 0 at 2. induction h as [|k IH]; intros s.
  - reflexivity.
  - cbn [seq flat_map]. rewrite length_app, length_map, length_seq, IH. lia.
Qed.

Lemma block_mean_total (mat : ndarray) (ys xs r c : nat) :
  block_mean mat ys xs r c
  == block_total mat ys xs r c / inject_Z (Z.of_nat xs * Z.of_nat ys).
Proof.
  unfold block_mean, mean. rewrite block_values_length.
  replace (Z.of_nat (ys * xs)) with (Z.of_nat xs * Z.of_nat ys)%Z by lia.
  apply Qmult_comp; [|reflexivity].
  unfold block_values, block_total. rewrite Qlist_sum_flat_map_seq.
  apply Qsum_upto_ext. intros i _. rewrite Qlist_sum_map_seq.
  apply Qsum_upto_ext. intros j _.
  now rewrite (Nat.add_comm i), (Nat.add_comm j).
Qed.

(* ------------------------------------------------------------------ *)
(** ** Scaling down, strict *)

Lemma correct_edges_no_pad (out : ndarray) (yScale xScale : Z) :
  correct_edges out yScale xScale 0 0 = Ok out.
Proof. reflexivity. Qed.

Lemma true_divide_item (a : ndarray) (k : Z) (r c : nat) :
  r < shape0 a -> c < shape1 a ->
  item (true_divide a k) r c = (item a r c / inject_Z k)%Q.
Proof. intros Hr Hc. unfold true_divide. now rewrite item_tabulate. Qed.

Section ScaleDownStrict.
Variables (mat : ndarray) (ys xs n m : nat).
Hypotheses (Hys : 0 < ys) (Hxs : 0 < xs).
Hypotheses (H0 : shape0 mat = n * ys) (H1 : shape1 mat = m * xs).

Lemma scale_down_strict_spec :
  exists out,
    scaleMatrix mat (ScalePair (- Z.of_nat ys) (- Z.of_nat xs)) true = Ok out /\
    down_frame n m out /\
    forall r c, r < n -> c < m ->
      item out r c
      == block_total mat ys xs r c / inject_Z (Z.of_nat xs * Z.of_nat ys).
Proof.
  unfold scaleMatrix. cbn [unpack].
  destruct (Z.eqb_spec (- Z.of_nat xs) 0); [lia|]. cbn [andb].
  destruct (Z.gtb_spec (- Z.of_nat xs) 0); [lia|]. cbn [andb].
  destruct (Z.ltb_spec (- Z.of_nat xs) 0); [|lia].
  destruct (Z.ltb_spec (- Z.of_nat ys) 0); [|lia]. cbn [andb].
  replace (-1 * - Z.of_nat ys)%Z with (Z.of_nat ys) by lia.
  replace (-1 * - Z.of_nat xs)%Z with (Z.of_nat xs) by lia.
  rewrite H0, H1, !Nat2Z.inj_mul, !Z.mod_mul by lia.
  cbn [Z.eqb andb negb bind].
  destruct (block_sums_spec mat ys xs n m Hys Hxs H0 H1)
    as (out & Hout & (Hd & Hr & Hc) & Hcells).
  rewrite Hout. cbn [bind]. rewrite correct_edges_no_pad.
  eexists; split; [reflexivity|]. split; [now repeat split|].
  intros r c Hrn Hcm.
  rewrite true_divide_item by lia.
  now rewrite (Hcells r c Hrn Hcm).
Qed.
End ScaleDownStrict.

(** *** From signed factors to extents *)

Lemma factor_of_nat (s : Z) : (0 < s)%Z -> s = Z.of_nat (Z.to_nat s).
Proof. intros H. now rewrite Z2Nat.id by lia. Qed.

Lemma neg_factor_of_nat (s : Z) : (s < 0)%Z -> s = (- Z.of_nat (Z.to_nat (- s)))%Z.
Proof. intros H. rewrite Z2Nat.id by lia. lia. Qed.

Lemma divides_extent (s : Z) (len : nat) :
  (0 < s)%Z -> (s | Z.of_nat len)%Z -> exists n, len = n * Z.to_nat s.
Proof.
  intros Hs [k Hk]. exists (Z.to_nat k).
  assert (0 <= k)%Z by nia.
  apply Nat2Z.inj. rewrite Nat2Z.inj_mul, !Z2Nat.id by lia. exact Hk.
Qed.


Lemma inject_Z_nonzero (z : Z) : z <> 0%Z -> ~ inject_Z z == 0.
Proof. intros Hz H. apply Hz. unfold Qeq in H. cbn in H. lia. Qed.

(* ------------------------------------------------------------------ *)
(** ** Scaling down, lenient *)

Lemma lenient_pad_spec (len : nat) (s : Z) :
  (0 < s)%Z ->
  let pad := lenient_pad len s in
  (0 <= pad < s)%Z /\
  exists k, (0 <= k)%Z /\ (Z.of_nat len + pad = k * s)%Z.
Proof.
  intros Hs. unfold lenient_pad. cbv zeta.
  pose proof (Z.mod_pos_bound (Z.of_nat len) s Hs) as Hb.
  pose proof (Z.div_mod (Z.of_nat len) s ltac:(lia)) as Hdm.
  assert (Hq : (0 <= Z.of_nat len / s)%Z) by (apply Z.div_pos; lia).
  destruct (Z.eqb_spec (s - Z.of_nat len mod s) s) as [He|Hne].
  - split; [lia|]. exists (Z.of_nat len / s)%Z. split; [exact Hq|]. lia.
  - split; [lia|]. exists (Z.of_nat len / s + 1)%Z. split; [lia|]. lia.
Qed.

Lemma lenient_pad_divides (len : nat) (s : Z) :
  (0 < s)%Z -> (Z.of_nat len mod s = 0)%Z -> lenient_pad len s = 0%Z.
Proof.
  intros Hs Hm. unfold lenient_pad. rewrite Hm, Z.sub_0_r.
  now rewrite Z.eqb_refl.
Qed.


Lemma promote_float_r (d : dtype) : promote d DFloat = DFloat.
Proof. now destruct d. Qed.

Lemma concatenate_zero_rows (mat : ndarray) (k : nat) :
  concatenate mat (np_zeros k (shape1 mat) DFloat) 0
  = Ok (tabulate DFloat (shape0 mat + k) (shape1 mat)
          (fun r c => if r <? shape0 mat then item mat r c else 0%Q)).
Proof.
  unfold concatenate.
  change (shape1 (np_zeros k (shape1 mat) DFloat)) with (shape1 mat).
  change (shape0 (np_zeros k (shape1 mat) DFloat)) with k.
  change (dtype_of (np_zeros k (shape1 mat) DFloat)) with DFloat.
  rewrite Nat.eqb_refl, promote_float_r. f_equal.
  apply tabulate_ext. intros r c Hr Hc.
  destruct (Nat.ltb_spec r (shape0 mat)); [reflexivity|].
  unfold np_zeros. now rewrite item_tabulate by lia.
Qed.

Lemma concatenate_zero_cols (mat : ndarray) (k : nat) :
  concatenate mat (np_zeros (shape0 mat) k DFloat) 1
  = Ok (tabulate DFloat (shape0 mat) (shape1 mat + k)
          (fun r c => if c <? shape1 mat then item mat r c else 0%Q)).
Proof.
  unfold concatenate.
  change (shape1 (np_zeros (shape0 mat) k DFloat)) with k.
  change (shape0 (np_zeros (shape0 mat) k DFloat)) with (shape0 mat).
  change (dtype_of (np_zeros (shape0 mat) k DFloat)) with DFloat.
  rewrite Nat.eqb_refl, promote_float_r. f_equal.
  apply tabulate_ext. intros r c Hr Hc.
  destruct (Nat.ltb_spec c (shape1 mat)); [reflexivity|].
  unfold np_zeros. now rewrite item_tabulate by lia.
Qed.

(** Lines 207-208: the padded matrix and what it holds. *)
Lemma pad_zeros_spec (mat : ndarray) (yPad xPad : Z) :
  (0 <= yPad)%Z -> (0 <= xPad)%Z ->
  exists mat',
    pad_zeros mat yPad xPad = Ok mat' /\
    shape0 mat' = shape0 mat + Z.to_nat yPad /\
    shape1 mat' = shape1 mat + Z.to_nat xPad /\
    forall r c, r < shape0 mat' -> c < shape1 mat' ->
      item mat' r c
      = if (r <? shape0 mat) && (c <? shape1 mat) then item mat r c else 0%Q.
Proof.
  intros Hy Hx. unfold pad_zeros.
  assert (Hrow : exists m1,
    (if (yPad >? 0)%Z
     then concatenate mat (np_zeros (Z.to_nat yPad) (shape1 mat) DFloat) 0
     else Ok mat) = Ok m1 /\
    shape0 m1 = shape0 mat + Z.to_nat yPad /\ shape1 m1 = shape1 mat /\
    forall r c, r < shape0 m1 -> c < shape1 m1 ->
      item m1 r c = if r <? shape0 mat then item mat r c else 0%Q).
  { destruct (Z.gtb_spec yPad 0) as [Hpos|Hno].
    - rewrite concatenate_zero_rows. eexists; split; [reflexivity|].
      repeat split. intros r c Hr Hc. now rewrite item_tabulate.
    - exists mat. replace yPad with 0%Z by lia. cbn [Z.to_nat].
      rewrite Nat.add_0_r. repeat split.
      intros r c Hr Hc. destruct (Nat.ltb_spec r (shape0 mat)); [reflexivity|lia]. }
  destruct Hrow as (m1 & Hm1 & Hs0 & Hs1 & Hit). rewrite Hm1. cbn [bind].
  destruct (Z.gtb_spec xPad 0) as [Hpos|Hno].
  - rewrite concatenate_zero_cols. eexists; split; [reflexivity|].
    change (shape0 (tabulate ?d ?r ?c ?f)) with r.
    cbn [tabulate shape0 shape1]. rewrite Hs0, Hs1. repeat split.
    intros r c Hr Hc.
    fold (tabulate DFloat (shape0 m1) (shape1 mat + Z.to_nat xPad)
            (fun r c => if c <? shape1 mat then item m1 r c else 0%Q)).
    rewrite item_tabulate by lia.
    destruct (Nat.ltb_spec c (shape1 mat)) as [Hc'|Hc'].
    + rewrite Hit by lia. now rewrite andb_true_r.
    + now rewrite andb_false_r.
  - exists m1. replace xPad with 0%Z by lia. cbn [Z.to_nat].
    rewrite Nat.add_0_r. split; [reflexivity|]. repeat split; try assumption.
    intros r c Hr Hc. rewrite Hit by assumption.
    destruct (Nat.ltb_spec c (shape1 mat)); [now rewrite andb_true_r|lia].
Qed.

Lemma in_slice_at_index (j c : nat) : in_slice (at_index j) c = (c =? j).
Proof.
  unfold in_slice, at_index. cbn [start stop step].
  rewrite Nat.mod_1_r. cbn [Nat.eqb]. rewrite andb_true_r.
  destruct (Nat.leb_spec j c), (Nat.ltb_spec c (S j)), (Nat.eqb_spec c j);
    cbn; lia.
Qed.

Lemma in_slice_butlast (n r : nat) :
  in_slice (py_slice None (Some (-1)%Z) 1 n) r = (r <? n - 1).
Proof.
  unfold in_slice, py_slice, adjust. cbn [start stop step Z.ltb Z.compare].
  rewrite Nat.mod_1_r. cbn [Nat.eqb Nat.leb]. rewrite andb_true_r.
  cbn [andb].
  replace (Z.to_nat (Z.max 0 (-1 + Z.of_nat n))) with (n - 1) by lia.
  reflexivity.
Qed.

Lemma py_index_last (n : nat) : 1 <= n -> py_index (-1) n = Ok (n - 1).
Proof.
  intros Hn. unfold py_index. cbn [Z.ltb Z.compare].
  destruct (Z.leb_spec 0 (-1 + Z.of_nat n)); [|lia].
  destruct (Z.ltb_spec (-1 + Z.of_nat n) (Z.of_nat n)); [|lia].
  cbn [andb]. f_equal. lia.
Qed.

Lemma py_div_ok (a : Q) (b : Z) :
  b <> 0%Z -> py_div a b = Ok (a / inject_Z b)%Q.
Proof. intros Hb. unfold py_div. destruct (Z.eqb_spec b 0); [lia|reflexivity]. Qed.

Lemma imul_float (a : ndarray) (ys xs : slice) (k : Q) :
  dtype_of a = DFloat ->
  imul a ys xs k
  = Ok (tabulate DFloat (shape0 a) (shape1 a)
          (fun r c => if in_slice ys r && in_slice xs c
                      then (item a r c * k)%Q else item a r c)).
Proof. intros Hd. unfold imul. now rewrite Hd. Qed.

Lemma imul_spec (a : ndarray) (ys xs : slice) (k : Q) (n m : nat) :
  down_frame n m a ->
  exists a',
    imul a ys xs k = Ok a' /\ down_frame n m a' /\
    forall r c, r < n -> c < m ->
      item a' r c
      = if in_slice ys r && in_slice xs c then (item a r c * k)%Q
        else item a r c.
Proof.
  intros (Hd & Hr & Hc). rewrite imul_float by assumption.
  eexists; split; [reflexivity|]. rewrite Hr, Hc.
  split; [now repeat split|].
  intros r c Hrn Hcm. now rewrite item_tabulate.
Qed.

(** Lines 217-219 on an [n] x [m] float result: which cells are rescaled,
    and by what. *)
Lemma correct_edges_spec (out : ndarray) (n m : nat) (yScale xScale yPad xPad : Z) :
  down_frame n m out -> 1 <= n -> 1 <= m ->
  (yScale - yPad <> 0)%Z -> (xScale - xPad <> 0)%Z ->
  exists out',
    correct_edges out yScale xScale yPad xPad = Ok out' /\
    down_frame n m out' /\
    forall r c, r < n -> c < m ->
      item out' r c
      == item out r c * applied_factor n m yScale xScale yPad xPad r c.
Proof.
  intros Hfr Hn Hm Hdy Hdx. unfold correct_edges.
  assert (H1 : exists o1,
    (if (yPad >? 0)%Z then
       k <- py_div (inject_Z yScale) (yScale - yPad) ;;
       j <- py_index (-1) (shape1 out) ;;
       imul out (py_slice None (Some (-1)%Z) 1 (shape0 out)) (at_index j) k
     else Ok out) = Ok o1 /\ down_frame n m o1 /\
    forall r c, r < n -> c < m ->
      item o1 r c
      = if (yPad >? 0)%Z && (r <? n - 1) && (c =? m - 1)
        then (item out r c * (inject_Z yScale / inject_Z (yScale - yPad)))%Q
        else item out r c).
  { destruct (yPad >? 0)%Z.
    - destruct Hfr as (Hd & Hr & Hc).
      rewrite py_div_ok by assumption. cbn [bind].
      rewrite Hr, Hc, py_index_last by assumption. cbn [bind].
      destruct (imul_spec out (py_slice None (Some (-1)%Z) 1 n)
                  (at_index (m - 1))
                  (inject_Z yScale / inject_Z (yScale - yPad)) n m)
        as (o1 & Ho1 & Hfr1 & Hit1); [now repeat split|].
      exists o1. split; [exact Ho1|]. split; [exact Hfr1|].
      intros r c Hrn Hcm. rewrite Hit1 by assumption.
      now rewrite in_slice_butlast, in_slice_at_index.
    - exists out. split; [reflexivity|]. split; [exact Hfr|]. intros; reflexivity. }
  destruct H1 as (o1 & Ho1 & Hfr1 & Hit1). rewrite Ho1. cbn [bind].
  assert (H2 : exists o2,
    (if (xPad >? 0)%Z then
       k <- py_div (inject_Z xScale) (xScale - xPad) ;;
       i <- py_index (-1) (shape0 o1) ;;
       imul o1 (at_index i) (py_slice None (Some (-1)%Z) 1 (shape1 o1)) k
     else Ok o1) = Ok o2 /\ down_frame n m o2 /\
    forall r c, r < n -> c < m ->
      item o2 r c
      = if (xPad >? 0)%Z && (r =? n - 1) && (c <? m - 1)
        then (item o1 r c * (inject_Z xScale / inject_Z (xScale - xPad)))%Q
        else item o1 r c).
  { destruct (xPad >? 0)%Z.
    - destruct Hfr1 as (Hd & Hr & Hc).
      rewrite py_div_ok by assumption. cbn [bind].
      rewrite Hr, Hc, py_index_last by assumption. cbn [bind].
      destruct (imul_spec o1 (at_index (n - 1))
                  (py_slice None (Some (-1)%Z) 1 m)
                  (inject_Z xScale / inject_Z (xScale - xPad)) n m)
        as (o2 & Ho2 & Hfr2 & Hit2); [now repeat split|].
      exists o2. split; [exact Ho2|]. split; [exact Hfr2|].
      intros r c Hrn Hcm. rewrite Hit2 by assumption.
      now rewrite in_slice_butlast, in_slice_at_index.
    - exists o1. split; [reflexivity|]. split; [exact Hfr1|]. intros; reflexivity. }
  destruct H2 as (o2 & Ho2 & Hfr2 & Hit2). rewrite Ho2. cbn [bind].
  assert (H3 : exists o3,
    (if (yPad >? 0)%Z then
       k1 <- py_div (inject_Z (yScale * xScale)) (yScale - yPad) ;;
       k <- py_div k1 (xScale - xPad) ;;
       i <- py_index (-1) (shape0 o2) ;;
       j <- py_index (-1) (shape1 o2) ;;
       imul o2 (at_index i) (at_index j) k
     else Ok o2) = Ok o3 /\ down_frame n m o3 /\
    forall r c, r < n -> c < m ->
      item o3 r c
      = if (yPad >? 0)%Z && (r =? n - 1) && (c =? m - 1)
        then (item o2 r c * (inject_Z (yScale * xScale)
                             / inject_Z (yScale - yPad)
                             / inject_Z (xScale - xPad)))%Q
        else item o2 r c).
  { destruct (yPad >? 0)%Z.
    - destruct Hfr2 as (Hd & Hr & Hc).
      rewrite !py_div_ok by assumption. cbn [bind].
      rewrite py_div_ok by assumption. cbn [bind].
      rewrite Hr, Hc, !py_index_last by assumption. cbn [bind].
      destruct (imul_spec o2 (at_index (n - 1)) (at_index (m - 1))
                  (inject_Z (yScale * xScale) / inject_Z (yScale - yPad)
                   / inject_Z (xScale - xPad)) n m)
        as (o3 & Ho3 & Hfr3 & Hit3); [now repeat split|].
      exists o3. split; [exact Ho3|]. split; [exact Hfr3|].
      intros r c Hrn Hcm. rewrite Hit3 by assumption.
      now rewrite !in_slice_at_index.
    - exists o2. split; [reflexivity|]. split; [exact Hfr2|]. intros; reflexivity. }
  destruct H3 as (o3 & Ho3 & Hfr3 & Hit3).
  exists o3. split; [exact Ho3|]. split; [exact Hfr3|].
  intros r c Hrn Hcm.
  rewrite Hit3, Hit2, Hit1 by assumption. unfold applied_factor.
  destruct ((yPad >? 0)%Z && (r <? n - 1) && (c =? m - 1));
    destruct ((xPad >? 0)%Z && (r =? n - 1) && (c <? m - 1));
    destruct ((yPad >? 0)%Z && (r =? n - 1) && (c =? m - 1)); ring.
Qed.

Section ScaleDownLenient.
Variables (mat : ndarray) (ys xs : nat).
Hypotheses (Hys : 0 < ys) (Hxs : 0 < xs).
Hypotheses (Hrows : 1 <= shape0 mat) (Hcols : 1 <= shape1 mat).

Let yPad := lenient_pad (shape0 mat) (Z.of_nat ys).
Let xPad := lenient_pad (shape1 mat) (Z.of_nat xs).

(** Lines 190-219 with [strict=False] on a non-empty matrix: the call ends
    normally; each cell is the mean of its block of the padded matrix, times
    the factor lines 217-219 apply to it. *)
Lemma scale_down_lenient_spec :
  exists n m mat' out,
    shape0 mat + Z.to_nat yPad = n * ys /\
    shape1 mat + Z.to_nat xPad = m * xs /\
    1 <= n /\ 1 <= m /\
    pad_zeros mat yPad xPad = Ok mat' /\
    scaleMatrix mat (ScalePair (- Z.of_nat ys) (- Z.of_nat xs)) false = Ok out /\
    down_frame n m out /\
    forall r c, r < n -> c < m ->
      item out r c
      == block_total mat' ys xs r c / inject_Z (Z.of_nat xs * Z.of_nat ys)
         * applied_factor n m (Z.of_nat ys) (Z.of_nat xs) yPad xPad r c.
Proof.
  destruct (lenient_pad_spec (shape0 mat) (Z.of_nat ys) ltac:(lia))
    as (Hyb & ky & Hky & Hyk).
  destruct (lenient_pad_spec (shape1 mat) (Z.of_nat xs) ltac:(lia))
    as (Hxb & kx & Hkx & Hxk).
  fold yPad in Hyb, Hyk. fold xPad in Hxb, Hxk.
  assert (Hn : shape0 mat + Z.to_nat yPad = Z.to_nat ky * ys).
  { apply Nat2Z.inj. rewrite Nat2Z.inj_add, Nat2Z.inj_mul, !Z2Nat.id by lia.
    exact Hyk. }
  assert (Hm : shape1 mat + Z.to_nat xPad = Z.to_nat kx * xs).
  { apply Nat2Z.inj. rewrite Nat2Z.inj_add, Nat2Z.inj_mul, !Z2Nat.id by lia.
    exact Hxk. }
  destruct (pad_zeros_spec mat yPad xPad ltac:(lia) ltac:(lia))
    as (mat' & Hpad & Hs0 & Hs1 & _).
  exists (Z.to_nat ky), (Z.to_nat kx), mat'.
  assert (Hn1 : 1 <= Z.to_nat ky) by nia.
  assert (Hm1 : 1 <= Z.to_nat kx) by nia.
  rewrite Hn in Hs0. rewrite Hm in Hs1.
  destruct (block_sums_spec mat' ys xs _ _ Hys Hxs Hs0 Hs1)
    as (sums & Hsums & (Hd & Hr & Hc) & Hcells).
  destruct (correct_edges_spec
              (true_divide sums (Z.of_nat xs * Z.of_nat ys))
              (Z.to_nat ky) (Z.to_nat kx) (Z.of_nat ys) (Z.of_nat xs) yPad xPad)
    as (out & Hout & Hfr & Hit); try lia.
  { unfold true_divide. now rewrite Hr, Hc. }
  exists out. repeat (split; [assumption|]).
  split.
  - unfold scaleMatrix. cbn [unpack].
    destruct (Z.eqb_spec (- Z.of_nat xs) 0); [lia|]. cbn [andb].
    destruct (Z.gtb_spec (- Z.of_nat xs) 0); [lia|]. cbn [andb].
    destruct (Z.ltb_spec (- Z.of_nat xs) 0); [|lia].
    destruct (Z.ltb_spec (- Z.of_nat ys) 0); [|lia]. cbn [andb].
    replace (-1 * - Z.of_nat ys)%Z with (Z.of_nat ys) by lia.
    replace (-1 * - Z.of_nat xs)%Z with (Z.of_nat xs) by lia.
    fold yPad xPad. rewrite Hpad. cbn [bind].
    rewrite Hsums. cbn [bind]. exact Hout.
  - split; [exact Hfr|]. intros r c Hrn Hcm.
    rewrite (Hit r c Hrn Hcm), true_divide_item by lia.
    now rewrite (Hcells r c Hrn Hcm).
Qed.
End ScaleDownLenient.

(* ------------------------------------------------------------------ *)
(** ** Where a [GeoKitError] can come from *)

Lemma no_geokit_bind {A B : Type} (m : result A) (k : A -> result B) :
  no_geokit m -> (forall a, no_geokit (k a)) -> no_geokit (bind m k).
Proof. destruct m as [a|e]; cbn; auto. Qed.

Lemma no_geokit_foldM {A J : Type} (f : A -> J -> result A) (l : list J) (a : A) :
  (forall x i, no_geokit (f x i)) -> no_geokit (foldM f l a).
Proof.
  intros Hf. revert a. induction l as [|i l IH]; intros a; cbn [foldM].
  - exact I.
  - apply no_geokit_bind; [apply Hf|exact IH].
Qed.

Lemma no_geokit_getitem (a : ndarray) (ys xs : slice) :
  no_geokit (getitem a ys xs).
Proof. unfold getitem. now destruct (steps_ok ys xs). Qed.

Lemma no_geokit_setitem (a : ndarray) (ys xs : slice) (src : ndarray) :
  no_geokit (setitem a ys xs src).
Proof.
  unfold setitem. destruct (steps_ok ys xs); [|reflexivity].
  now destruct (_ && _).
Qed.

Lemma no_geokit_iadd (a b : ndarray) : no_geokit (iadd a b).
Proof.
  unfold iadd. destruct (_ && _); [reflexivity|]. now destruct (_ && _).
Qed.

Lemma no_geokit_imul (a : ndarray) (ys xs : slice) (k : Q) :
  no_geokit (imul a ys xs k).
Proof. unfold imul. now destruct (dtype_of a). Qed.

Lemma no_geokit_py_div (a : Q) (b : Z) : no_geokit (py_div a b).
Proof. unfold py_div. now destruct (b =? 0)%Z. Qed.

Lemma no_geokit_py_index (i : Z) (len : nat) : no_geokit (py_index i len).
Proof. unfold py_index. now destruct (_ && _). Qed.

Lemma no_geokit_concatenate (a b : ndarray) (axis : nat) :
  no_geokit (concatenate a b axis).
Proof.
  unfold concatenate. destruct axis as [|[|k]]; [| |reflexivity].
  - now destruct (shape1 a =? shape1 b).
  - now destruct (shape0 a =? shape0 b).
Qed.

Lemma no_geokit_ok {A : Type} (a : A) : no_geokit (Ok a).
Proof. exact I. Qed.

Create HintDb geokit.

#[local] Hint Resolve no_geokit_getitem no_geokit_setitem no_geokit_iadd
  no_geokit_imul no_geokit_py_div no_geokit_py_index no_geokit_concatenate
  no_geokit_ok : geokit.

Ltac no_geokit_steps :=
  repeat first
    [ apply no_geokit_foldM; intros
    | apply no_geokit_bind; [|intros]
    | solve [auto with geokit]
    | match goal with |- no_geokit (if ?b then _ else _) => destruct b end ].

Lemma no_geokit_scale_up (mat : ndarray) (yScale xScale : Z) :
  no_geokit (scale_up mat yScale xScale).
Proof. unfold scale_up. no_geokit_steps. Qed.

Lemma no_geokit_block_sums (mat : ndarray) (yScale xScale : Z) :
  no_geokit (block_sums mat yScale xScale).
Proof. unfold block_sums. no_geokit_steps. Qed.

Lemma no_geokit_pad_zeros (mat : ndarray) (yPad xPad : Z) :
  no_geokit (pad_zeros mat yPad xPad).
Proof. unfold pad_zeros. no_geokit_steps. Qed.

Lemma no_geokit_correct_edges (out : ndarray) (yScale xScale yPad xPad : Z) :
  no_geokit (correct_edges out yScale xScale yPad xPad).
Proof. unfold correct_edges. no_geokit_steps. Qed.

(** With two negative factors the only [GeoKitError] is the one of the
    strict divisibility test. *)
Lemma scale_down_not_direction (mat : ndarray) (yScale xScale : Z) (strict : bool) :
  (yScale < 0)%Z -> (xScale < 0)%Z ->
  scaleMatrix mat (ScalePair yScale xScale) strict <> Raise InvalidScaleDirection.
Proof.
  intros Hy Hx. unfold scaleMatrix. cbn [unpack].
  destruct (Z.eqb_spec xScale 0); [lia|]. cbn [andb].
  destruct (Z.gtb_spec xScale 0); [lia|]. cbn [andb].
  destruct (Z.ltb_spec xScale 0); [|lia].
  destruct (Z.ltb_spec yScale 0); [|lia]. cbn [andb].
  assert (Hrest : forall yPad xPad m,
    no_geokit (out <- block_sums m (-1 * yScale) (-1 * xScale) ;;
               correct_edges (true_divide out (-1 * xScale * (-1 * yScale)))
                 (-1 * yScale) (-1 * xScale) yPad xPad)).
  { intros. apply no_geokit_bind; [apply no_geokit_block_sums|].
    intros. apply no_geokit_correct_edges. }
  destruct strict.
  - destruct (negb _); cbn [bind]; [discriminate|].
    intros Hraise. specialize (Hrest 0%Z 0%Z mat).
    rewrite Hraise in Hrest. discriminate.
  - intros Hraise.
    assert (Hall : no_geokit
      (Raise InvalidScaleDirection : result ndarray)); [|discriminate].
    rewrite <- Hraise. apply no_geokit_bind.
    + apply no_geokit_bind; [apply no_geokit_pad_zeros|intros; exact I].
    + intros [[yPad xPad] m]. apply Hrest.
Qed.

(* ------------------------------------------------------------------ *)
(** ** The kernel processor *)

Lemma unit_slice_len (a b : nat) : slice_len (mkSlice a b 1) = b - a.
Proof.
  unfold slice_len. cbn [start stop step]. rewrite Nat.div_1_r.
  destruct (Nat.ltb_spec a b); lia.
Qed.

Lemma unit_slice_in (a b r : nat) :
  in_slice (mkSlice a b 1) r = (a <=? r) && (r <? b).
Proof.
  unfold in_slice. cbn [start stop step]. rewrite Nat.mod_1_r.
  cbn [Nat.eqb]. now rewrite andb_true_r.
Qed.



Section Kernel.
Variables (size : nat) (edgeValue : pynum) (matrix : ndarray).
Hypothesis Hsize : 1 <= size.

Let yN := shape0 matrix.
Let xN := shape1 matrix.


End Kernel.

Section KernelLoops.
Variables (size : nat) (edgeValue : pynum) (outputType : option dtype).
Variables (passIndex : bool) (kernel : kernel_fn) (matrix : ndarray).
Hypothesis Hsize : 1 <= size.

Let yN := shape0 matrix.
Let xN := shape1 matrix.



End KernelLoops.

(* ------------------------------------------------------------------ *)
(** ** Scaling up, through [scaleMatrix] *)

Lemma scaleMatrix_up_spec (mat : ndarray) (yScale xScale : Z)
    (strict : bool) :
  (0 < yScale)%Z -> (0 < xScale)%Z ->
  exists out,
    scaleMatrix mat (ScalePair yScale xScale) strict = Ok out /\
    shape0 out = shape0 mat * Z.to_nat yScale /\
    shape1 out = shape1 mat * Z.to_nat xScale /\
    dtype_of out = dtype_of mat /\
    forall r c, r < shape0 out -> c < shape1 out ->
      item out r c = item mat (r / Z.to_nat yScale) (c / Z.to_nat xScale).
Proof.
  intros Hy Hx.
  destruct (scale_up_spec mat (Z.to_nat yScale) (Z.to_nat xScale)
              ltac:(lia) ltac:(lia)) as (out & Hout & (Hd & H0 & H1) & Hcells).
  rewrite <- !factor_of_nat in Hout by assumption.
  exists out. unfold scaleMatrix. cbn [unpack].
  destruct (Z.eqb_spec xScale 0); [lia|]. cbn [andb].
  destruct (Z.gtb_spec xScale 0); [|lia].
  destruct (Z.gtb_spec yScale 0); [|lia]. cbn [andb].
  repeat (split; [assumption|]).
  intros r c Hr Hc. apply Hcells; lia.
Qed.

(* ------------------------------------------------------------------ *)
(** ** The kernel processor with [size = 0] *)

(** Line 284 with [size = 0]: the slice [0:-0] is [0:0], empty, so the
    matrix is broadcast to a 0 x 0 target and nothing is copied. *)
Lemma pad_matrix_radius0 (edgeValue : pynum) (matrix : ndarray) :
  pad_matrix 0 edgeValue matrix
  = if broadcastable (shape0 matrix) 0 && broadcastable (shape1 matrix) 0
    then Ok (tabulate (promote (dtype_of matrix) (num_kind edgeValue))
               (shape0 matrix + 0) (shape1 matrix + 0)
               (fun _ _ => num_val edgeValue))
    else Raise (ValueError "could not broadcast input array").
Proof.
  unfold pad_matrix, np_ones_times.
  change (shape0 (tabulate ?d ?r ?c ?f)) with r.
  change (shape1 (tabulate ?d ?r ?c ?f)) with c.
  change (py_slice (Some (Z.of_nat 0)) (Some (- Z.of_nat 0)%Z) 1 ?len)
    with (mkSlice 0 0 1).
  unfold setitem, steps_ok. cbn [step Nat.eqb negb andb].
  rewrite unit_slice_len. cbn [Nat.sub Nat.mul].
  destruct (broadcastable (shape0 matrix) 0 && broadcastable (shape1 matrix) 0);
    [|reflexivity].
  change (dtype_of (tabulate ?d ?r ?c ?f)) with d.
  change (shape0 (tabulate ?d ?r ?c ?f)) with r.
  change (shape1 (tabulate ?d ?r ?c ?f)) with c.
  f_equal. apply tabulate_ext. intros r c Hr Hc.
  rewrite unit_slice_in. cbn [Nat.leb Nat.ltb andb].
  rewrite item_tabulate by assumption. apply Qmult_1_l_eq.
Qed.

(** With [size = 0] a matrix with two or more rows, or two or more columns,
    cannot be broadcast to the empty target. *)
Lemma KernelProcessor_radius0_raises (edgeValue : pynum)
    (outputType : option dtype) (passIndex : bool) (kernel : kernel_fn)
    (matrix : ndarray) :
  2 <= shape0 matrix \/ 2 <= shape1 matrix ->
  KernelProcessor 0 edgeValue outputType passIndex kernel matrix
  = Raise (ValueError "could not broadcast input array").
Proof.
  intros Hbig. unfold KernelProcessor. rewrite pad_matrix_radius0.
  unfold broadcastable.
  destruct (Nat.eqb_spec (shape0 matrix) 0), (Nat.eqb_spec (shape0 matrix) 1),
    (Nat.eqb_spec (shape1 matrix) 0), (Nat.eqb_spec (shape1 matrix) 1);
    cbn [orb andb bind]; try reflexivity; lia.
Qed.

(** With [size = 0] a 1 x 1 matrix is accepted, and the kernel sees the edge
    value, not the cell. *)
Lemma KernelProcessor_radius0_single (edgeValue : pynum)
    (outputType : option dtype) (passIndex : bool) (kernel : kernel_fn)
    (matrix : ndarray) :
  shape0 matrix = 1 -> shape1 matrix = 1 ->
  exists out,
    KernelProcessor 0 edgeValue outputType passIndex kernel matrix = Ok out /\
    kernel_frame outputType matrix out /\
    item out 0 0
    = astype (kernel_dtype outputType matrix)
        (kernel (tabulate (promote (dtype_of matrix) (num_kind edgeValue)) 1 1
                   (fun _ _ => num_val edgeValue))
                (kernel_index passIndex 0 0)).
Proof.
  intros H0 H1. unfold KernelProcessor. rewrite pad_matrix_radius0, H0, H1.
  cbn [broadcastable Nat.eqb orb andb bind Nat.add range seq foldM].
  set (padded := tabulate _ 1 1 _).
  assert (Hw : sliced 0 padded 0 0 = Ok padded).
  { unfold sliced, padded.
    change (shape0 (tabulate ?d ?r ?c ?f)) with r.
    change (shape1 (tabulate ?d ?r ?c ?f)) with c.
    change (py_slice (Some (Z.of_nat 0)) (Some (Z.of_nat (2 * 0 + 0 + 1))) 1 1)
      with (mkSlice 0 1 1).
    unfold getitem, steps_ok. cbn [step start Nat.eqb negb andb].
    rewrite unit_slice_len. cbn [Nat.sub].
    change (dtype_of (tabulate ?d ?r ?c ?f)) with d.
    reflexivity. }
  rewrite Hw. cbn [bind].
  exists (setitem_scalar (np_zeros 1 1 (kernel_dtype outputType matrix)) 0 0
            (kernel padded (kernel_index passIndex 0 0))).
  split; [unfold kernel_index, kernel_dtype; now destruct passIndex|].
  split; [unfold kernel_frame; now rewrite H0, H1|].
  unfold setitem_scalar.
  change (dtype_of (np_zeros ?r ?c ?d)) with d.
  change (shape0 (np_zeros ?r ?c ?d)) with r.
  change (shape1 (np_zeros ?r ?c ?d)) with c.
  rewrite item_tabulate by lia. reflexivity.
Qed.

(* ------------------------------------------------------------------ *)
(** ** The lenient branch, spelled out *)

(** Lines 190-219 with [strict=False]: the pads, the padding, the block
    means and the correction. *)
Lemma scaleMatrix_lenient_unfold (mat : ndarray) (yScale xScale : Z) :
  (yScale < 0)%Z -> (xScale < 0)%Z ->
  scaleMatrix mat (ScalePair yScale xScale) false
  = (let yPad := lenient_pad (shape0 mat) (- yScale) in
     let xPad := lenient_pad (shape1 mat) (- xScale) in
     padded <- pad_zeros mat yPad xPad ;;
     out <- block_sums padded (- yScale) (- xScale) ;;
     correct_edges (true_divide out (- xScale * - yScale))
       (- yScale) (- xScale) yPad xPad).
Proof.
  intros Hy Hx. unfold scaleMatrix. cbn [unpack].
  destruct (Z.eqb_spec xScale 0); [lia|]. cbn [andb].
  destruct (Z.gtb_spec xScale 0); [lia|]. cbn [andb].
  destruct (Z.ltb_spec xScale 0); [|lia].
  destruct (Z.ltb_spec yScale 0); [|lia]. cbn [andb].
  replace (-1 * yScale)%Z with (- yScale)%Z by lia.
  replace (-1 * xScale)%Z with (- xScale)%Z by lia.
  cbv zeta. now destruct (pad_zeros mat _ _).
Qed.

(** The lenient result on a non-empty matrix, cell by cell: the mean of the
    block of the padded matrix, times the factor of lines 217-219. *)
Lemma scaleMatrix_lenient_cells (mat : ndarray) (yScale xScale : Z) :
  1 <= shape0 mat -> 1 <= shape1 mat ->
  (yScale < 0)%Z -> (xScale < 0)%Z ->
  let yPad := lenient_pad (shape0 mat) (- yScale) in
  let xPad := lenient_pad (shape1 mat) (- xScale) in
  exists padded out,
    pad_zeros mat yPad xPad = Ok padded /\
    scaleMatrix mat (ScalePair yScale xScale) false = Ok out /\
    dtype_of out = DFloat /\
    Z.of_nat (shape0 out) = ((Z.of_nat (shape0 mat) + yPad) / - yScale)%Z /\
    Z.of_nat (shape1 out) = ((Z.of_nat (shape1 mat) + xPad) / - xScale)%Z /\
    forall r c, r < shape0 out -> c < shape1 out ->
      item out r c
      == block_mean padded (Z.to_nat (- yScale)) (Z.to_nat (- xScale)) r c
         * applied_factor (shape0 out) (shape1 out) (- yScale) (- xScale)
             yPad xPad r c.
Proof.
  intros Hrows Hcols Hy Hx yPad xPad.
  destruct (scale_down_lenient_spec mat (Z.to_nat (- yScale))
              (Z.to_nat (- xScale)) ltac:(lia) ltac:(lia) Hrows Hcols)
    as (n & m & padded & out & Hn & Hm & _ & _ & Hpad & Hout & (Hd & H0 & H1)
        & Hcells).
  assert (Ey : Z.of_nat (Z.to_nat (- yScale)) = (- yScale)%Z)
    by (apply Z2Nat.id; lia).
  assert (Ex : Z.of_nat (Z.to_nat (- xScale)) = (- xScale)%Z)
    by (apply Z2Nat.id; lia).
  rewrite <- !neg_factor_of_nat in Hout by assumption.
  rewrite Ey in Hn. rewrite Ex in Hm. rewrite Ey, Ex in Hpad.
  setoid_rewrite Ey in Hcells. setoid_rewrite Ex in Hcells.
  fold yPad in Hn, Hpad, Hcells. fold xPad in Hm, Hpad, Hcells.
  destruct (lenient_pad_spec (shape0 mat) (- yScale) ltac:(lia)) as (Hyb & _).
  destruct (lenient_pad_spec (shape1 mat) (- xScale) ltac:(lia)) as (Hxb & _).
  fold yPad in Hyb. fold xPad in Hxb.
  exists padded, out. rewrite H0, H1.
  split; [exact Hpad|]. split; [exact Hout|]. split; [exact Hd|].
  split.
  { apply Z.div_unique_exact; [lia|].
    apply (f_equal Z.of_nat) in Hn.
    rewrite Nat2Z.inj_add, Nat2Z.inj_mul, Ey, Z2Nat.id in Hn by lia. lia. }
  split.
  { apply Z.div_unique_exact; [lia|].
    apply (f_equal Z.of_nat) in Hm.
    rewrite Nat2Z.inj_add, Nat2Z.inj_mul, Ex, Z2Nat.id in Hm by lia. lia. }
  intros r c Hr Hc. rewrite (Hcells r c Hr Hc).
  apply Qmult_comp; [|reflexivity].
  rewrite block_mean_total, Ey, Ex. reflexivity.
Qed.

(* ------------------------------------------------------------------ *)
(** ** Finite sums *)

Lemma Qsum_upto_add (n m : nat) (f : nat -> Q) :
  Qsum_upto (n + m) f == Qsum_upto n f + Qsum_upto m (fun i => f (n + i)).
Proof.
  induction m as [|k IH].
  - rewrite Nat.add_0_r. cbn [Qsum_upto]. ring.
  - rewrite Nat.add_succ_r. cbn [Qsum_upto]. rewrite IH. ring.
Qed.

Lemma Qsum_upto_mul (n s : nat) (g : nat -> Q) :
  Qsum_upto (n * s) g
  == Qsum_upto n (fun i => Qsum_upto s (fun k => g (k + i * s))).
Proof.
  induction n as [|k IH]; [reflexivity|].
  cbn [Qsum_upto]. rewrite <- IH.
  replace (S k * s) with (k * s + s) by lia.
  rewrite Qsum_upto_add. apply Qplus_comp; [reflexivity|].
  apply Qsum_upto_ext. intros i _. now rewrite Nat.add_comm.
Qed.

Lemma Qsum_upto_plus (n : nat) (f g : nat -> Q) :
  Qsum_upto n (fun i => (f i + g i)%Q) == Qsum_upto n f + Qsum_upto n g.
Proof.
  induction n as [|k IH]; cbn [Qsum_upto]; [ring|]. rewrite IH. ring.
Qed.

Lemma Qsum_upto_scale (n : nat) (q : Q) (f : nat -> Q) :
  Qsum_upto n (fun i => (q * f i)%Q) == q * Qsum_upto n f.
Proof.
  induction n as [|k IH]; cbn [Qsum_upto]; [ring|]. rewrite IH. ring.
Qed.

Lemma Qsum_upto_swap (n m : nat) (f : nat -> nat -> Q) :
  Qsum_upto n (fun i => Qsum_upto m (fun j => f i j))
  == Qsum_upto m (fun j => Qsum_upto n (fun i => f i j)).
Proof.
  induction n as [|k IH]; cbn [Qsum_upto].
  - symmetry. transitivity (Qsum_upto m (fun _ => 0%Q)).
    + apply Qsum_upto_ext. intros; reflexivity.
    + rewrite Qsum_upto_const. ring.
  - rewrite IH. symmetry. apply Qsum_upto_plus.
Qed.

Lemma Qsum_upto_zero_tail (n k : nat) (f : nat -> Q) :
  k <= n -> (forall i, k <= i < n -> f i == 0) ->
  Qsum_upto n f == Qsum_upto k f.
Proof.
  intros Hk Hz. replace n with (k + (n - k)) by lia.
  rewrite Qsum_upto_add.
  assert (Ht : Qsum_upto (n - k) (fun i => f (k + i)) == 0).
  { transitivity (Qsum_upto (n - k) (fun _ => 0%Q)).
    - apply Qsum_upto_ext. intros; apply Hz; lia.
    - rewrite Qsum_upto_const. ring. }
  rewrite Ht. ring.
Qed.





(** The total of a matrix of [n * ys] x [m * xs] cells, block by block. *)
Lemma total_by_blocks (F : nat -> nat -> Q) (n m ys xs : nat) :
  Qsum_upto (n * ys) (fun R => Qsum_upto (m * xs) (fun C => F R C))
  == Qsum_upto n (fun r => Qsum_upto m (fun c =>
       Qsum_upto ys (fun yo => Qsum_upto xs (fun xo =>
         F (yo + r * ys) (xo + c * xs))))).
Proof.
  rewrite Qsum_upto_mul. apply Qsum_upto_ext. intros r _.
  transitivity (Qsum_upto ys (fun yo => Qsum_upto m (fun c =>
                  Qsum_upto xs (fun xo => F (yo + r * ys) (xo + c * xs))))).
  - apply Qsum_upto_ext. intros yo _. apply Qsum_upto_mul.
  - apply (Qsum_upto_swap ys m
             (fun yo c => Qsum_upto xs (fun xo => F (yo + r * ys) (xo + c * xs)))).
Qed.

(* ------------------------------------------------------------------ *)
(** ** More on the lenient branch *)

Lemma Qlist_sum_block_values (mat : ndarray) (r0 c0 h w : nat) :
  Qlist_sum (block_values mat r0 c0 h w)
  == Qsum_upto h (fun i => Qsum_upto w (fun j => item mat (r0 + i) (c0 + j))).
Proof.
  unfold block_values. rewrite Qlist_sum_flat_map_seq.
  apply Qsum_upto_ext. intros i _. apply Qlist_sum_map_seq.
Qed.

(** The number of blocks along an axis that lenient mode pads. *)
Lemma padded_extent_ceil (len s n : nat) (pad : Z) :
  0 < s -> (0 <= pad < Z.of_nat s)%Z ->
  len + Z.to_nat pad = n * s -> n = ceil_div len s.
Proof.
  intros Hs Hp Hn. unfold ceil_div.
  apply Nat.div_unique with (s - 1 - Z.to_nat pad); nia.
Qed.

(** The rows of a block that belong to the matrix. *)
Lemma real_rows (len s n r : nat) (pad : Z) :
  0 < s -> (0 <= pad < Z.of_nat s)%Z ->
  len + Z.to_nat pad = n * s -> r < n ->
  Nat.min s (len - r * s)
  = if r =? n - 1 then s - Z.to_nat pad else s.
Proof.
  intros Hs Hp Hn Hr. destruct (Nat.eqb_spec r (n - 1)) as [->|Hne]; nia.
Qed.

(** The total of a block of the padded matrix is the total of its cells
    that belong to the matrix. *)
Lemma padded_block_total (mat padded : ndarray) (ys xs n m r c : nat)
    (yPad xPad : Z) :
  0 < ys -> 0 < xs ->
  (0 <= yPad < Z.of_nat ys)%Z -> (0 <= xPad < Z.of_nat xs)%Z ->
  shape0 mat + Z.to_nat yPad = n * ys ->
  shape1 mat + Z.to_nat xPad = m * xs ->
  pad_zeros mat yPad xPad = Ok padded ->
  r < n -> c < m ->
  block_total padded ys xs r c
  == Qsum_upto (Nat.min ys (shape0 mat - r * ys)) (fun i =>
       Qsum_upto (Nat.min xs (shape1 mat - c * xs)) (fun j =>
         item mat (r * ys + i) (c * xs + j))).
Proof.
  intros Hys Hxs Hyb Hxb Hn Hm Hpad Hr Hc.
  destruct (pad_zeros_spec mat yPad xPad ltac:(lia) ltac:(lia))
    as (p & Hp & Hs0 & Hs1 & Hit).
  rewrite Hpad in Hp. injection Hp as <-.
  unfold block_total.
  set (h := Nat.min ys (shape0 mat - r * ys)).
  set (w := Nat.min xs (shape1 mat - c * xs)).
  assert (Hcell : forall yo xo, yo < ys -> xo < xs ->
    item padded (yo + r * ys) (xo + c * xs)
    = if (yo <? h) && (xo <? w)
      then item mat (r * ys + yo) (c * xs + xo) else 0%Q).
  { intros yo xo Hyo Hxo. rewrite Hit by nia.
    rewrite (Nat.add_comm yo), (Nat.add_comm xo).
    destruct (Nat.ltb_spec (r * ys + yo) (shape0 mat)),
      (Nat.ltb_spec (c * xs + xo) (shape1 mat)),
      (Nat.ltb_spec yo h), (Nat.ltb_spec xo w);
      cbn [andb]; try reflexivity; subst h w; lia. }
  transitivity (Qsum_upto h (fun yo => Qsum_upto xs (fun xo =>
                  item padded (yo + r * ys) (xo + c * xs)))).
  { apply Qsum_upto_zero_tail; [subst h; lia|].
    intros yo Hyo.
    transitivity (Qsum_upto xs (fun _ => 0%Q)).
    - apply Qsum_upto_ext. intros xo Hxo. rewrite Hcell by lia.
      destruct (Nat.ltb_spec yo h); [lia|reflexivity].
    - rewrite Qsum_upto_const. ring. }
  apply Qsum_upto_ext. intros yo Hyo.
  transitivity (Qsum_upto w (fun xo =>
                  item padded (yo + r * ys) (xo + c * xs))).
  { apply Qsum_upto_zero_tail; [subst w; lia|].
    intros xo Hxo. rewrite Hcell by (subst h; lia).
    destruct (Nat.ltb_spec xo w); [lia|]. now rewrite andb_false_r. }
  apply Qsum_upto_ext. intros xo Hxo. rewrite Hcell by (subst h w; lia).
  destruct (Nat.ltb_spec yo h), (Nat.ltb_spec xo w); try lia. reflexivity.
Qed.

(** The lenient result in terms of the cells of the matrix itself: the mean
    of the real cells of the block, diluted by the padding, times the factor
    of lines 217-219. *)
Lemma scale_down_lenient_real (mat : ndarray) (ys xs : nat) :
  0 < ys -> 0 < xs -> 1 <= shape0 mat -> 1 <= shape1 mat ->
  let yPad := lenient_pad (shape0 mat) (Z.of_nat ys) in
  let xPad := lenient_pad (shape1 mat) (Z.of_nat xs) in
  exists n m out,
    (0 <= yPad < Z.of_nat ys)%Z /\ (0 <= xPad < Z.of_nat xs)%Z /\
    shape0 mat + Z.to_nat yPad = n * ys /\
    shape1 mat + Z.to_nat xPad = m * xs /\
    scaleMatrix mat (ScalePair (- Z.of_nat ys) (- Z.of_nat xs)) false = Ok out /\
    down_frame n m out /\
    forall r c, r < n -> c < m ->
      item out r c
      == real_block_mean mat ys xs r c
         * (inject_Z (Z.of_nat (Nat.min ys (shape0 mat - r * ys)))
            * inject_Z (Z.of_nat (Nat.min xs (shape1 mat - c * xs))))
         / inject_Z (Z.of_nat xs * Z.of_nat ys)
         * applied_factor n m (Z.of_nat ys) (Z.of_nat xs) yPad xPad r c.
Proof.
  intros Hys Hxs Hrows Hcols yPad xPad.
  destruct (lenient_pad_spec (shape0 mat) (Z.of_nat ys) ltac:(lia)) as (Hyb & _).
  destruct (lenient_pad_spec (shape1 mat) (Z.of_nat xs) ltac:(lia)) as (Hxb & _).
  fold yPad in Hyb. fold xPad in Hxb.
  destruct (scale_down_lenient_spec mat ys xs Hys Hxs Hrows Hcols)
    as (n & m & padded & out & Hn & Hm & _ & _ & Hpad & Hout & Hfr & Hcells).
  fold yPad in Hn, Hpad, Hcells. fold xPad in Hm, Hpad, Hcells.
  exists n, m, out. repeat (split; [assumption|]).
  intros r c Hr Hc. rewrite (Hcells r c Hr Hc).
  apply Qmult_comp; [|reflexivity].
  apply Qmult_comp; [|reflexivity].
  rewrite (padded_block_total mat padded ys xs n m r c yPad xPad)
    by assumption.
  unfold real_block_mean, mean.
  rewrite block_values_length, Qlist_sum_block_values.
  rewrite Nat2Z.inj_mul, inject_Z_mult. field.
  pose proof (real_rows (shape0 mat) ys n r yPad Hys Hyb Hn Hr) as Hh.
  pose proof (real_rows (shape1 mat) xs m c xPad Hxs Hxb Hm Hc) as Hw.
  split; apply inject_Z_nonzero.
  - rewrite Hw. destruct (c =? m - 1); lia.
  - rewrite Hh. destruct (r =? n - 1); lia.
Qed.

Lemma lenient_pad_positive (len s : nat) :
  0 < s -> len mod s <> 0 ->
  (0 < lenient_pad len (Z.of_nat s) < Z.of_nat s)%Z.
Proof.
  intros Hs Hm. unfold lenient_pad. rewrite <- Nat2Z.inj_mod.
  pose proof (Nat.mod_upper_bound len s ltac:(lia)).
  destruct (Z.eqb_spec (Z.of_nat s - Z.of_nat (len mod s)) (Z.of_nat s)); lia.
Qed.

Lemma lenient_pad_empty (s : nat) : 0 < s -> lenient_pad 0 (Z.of_nat s) = 0%Z.
Proof. intros Hs. apply lenient_pad_divides; [lia|apply Z.mod_0_l; lia]. Qed.

(** The lenient branch up to the correction: the block means of the padded
    matrix, also when the matrix has no row or no column. *)
Lemma lenient_before_correction (mat : ndarray) (ys xs : nat) :
  0 < ys -> 0 < xs ->
  let yPad := lenient_pad (shape0 mat) (Z.of_nat ys) in
  let xPad := lenient_pad (shape1 mat) (Z.of_nat xs) in
  exists n m avg,
    shape0 mat + Z.to_nat yPad = n * ys /\
    shape1 mat + Z.to_nat xPad = m * xs /\
    down_frame n m avg /\
    scaleMatrix mat (ScalePair (- Z.of_nat ys) (- Z.of_nat xs)) false
    = correct_edges avg (Z.of_nat ys) (Z.of_nat xs) yPad xPad.
Proof.
  intros Hys Hxs yPad xPad.
  destruct (lenient_pad_spec (shape0 mat) (Z.of_nat ys) ltac:(lia))
    as (Hyb & ky & Hky & Hyk).
  destruct (lenient_pad_spec (shape1 mat) (Z.of_nat xs) ltac:(lia))
    as (Hxb & kx & Hkx & Hxk).
  fold yPad in Hyb, Hyk. fold xPad in Hxb, Hxk.
  assert (Hn : shape0 mat + Z.to_nat yPad = Z.to_nat ky * ys).
  { apply Nat2Z.inj. rewrite Nat2Z.inj_add, Nat2Z.inj_mul, !Z2Nat.id by lia.
    exact Hyk. }
  assert (Hm : shape1 mat + Z.to_nat xPad = Z.to_nat kx * xs).
  { apply Nat2Z.inj. rewrite Nat2Z.inj_add, Nat2Z.inj_mul, !Z2Nat.id by lia.
    exact Hxk. }
  destruct (pad_zeros_spec mat yPad xPad ltac:(lia) ltac:(lia))
    as (padded & Hpad & Hs0 & Hs1 & _).
  rewrite Hn in Hs0. rewrite Hm in Hs1.
  destruct (block_sums_spec padded ys xs _ _ Hys Hxs Hs0 Hs1)
    as (sums & Hsums & (Hd & Hr & Hc) & _).
  exists (Z.to_nat ky), (Z.to_nat kx),
    (true_divide sums (Z.of_nat xs * Z.of_nat ys)).
  split; [exact Hn|]. split; [exact Hm|].
  split; [unfold true_divide; now rewrite Hr, Hc|].
  rewrite scaleMatrix_lenient_unfold by lia.
  rewrite !Z.opp_involutive. cbv zeta. fold yPad xPad.
  rewrite Hpad. cbn [bind]. rewrite Hsums. reflexivity.
Qed.

(* ------------------------------------------------------------------ *)
(** ** More on the kernel processor *)




(* ------------------------------------------------------------------ *)
(** ** Sums read backwards, and the flipped matrix *)





(* ------------------------------------------------------------------ *)
(** ** The outcomes of [scaleMatrix] *)

Lemma strict_not_factor_raises (mat : ndarray) (yScale xScale : Z) :
  (yScale < 0)%Z -> (xScale < 0)%Z ->
  (Z.of_nat (shape0 mat) mod - yScale <> 0
   \/ Z.of_nat (shape1 mat) mod - xScale <> 0)%Z ->
  scaleMatrix mat (ScalePair yScale xScale) true = Raise NonFactorScaleError.
Proof.
  intros Hy Hx Hnd. unfold scaleMatrix. cbn [unpack].
  destruct (Z.eqb_spec xScale 0); [lia|]. cbn [andb].
  destruct (Z.gtb_spec xScale 0); [lia|]. cbn [andb].
  destruct (Z.ltb_spec xScale 0); [|lia].
  destruct (Z.ltb_spec yScale 0); [|lia]. cbn [andb].
  replace (-1 * yScale)%Z with (- yScale)%Z by lia.
  replace (-1 * xScale)%Z with (- xScale)%Z by lia.
  destruct (Z.eqb_spec (Z.of_nat (shape0 mat) mod - yScale) 0) as [Ey|Ey];
    destruct (Z.eqb_spec (Z.of_nat (shape1 mat) mod - xScale) 0) as [Ex|Ex];
    cbn [andb negb bind]; try reflexivity.
  destruct Hnd; contradiction.
Qed.

Lemma strict_factor_returns (mat : ndarray) (yScale xScale : Z) :
  (yScale < 0)%Z -> (xScale < 0)%Z ->
  (Z.of_nat (shape0 mat) mod - yScale = 0)%Z ->
  (Z.of_nat (shape1 mat) mod - xScale = 0)%Z ->
  exists out, scaleMatrix mat (ScalePair yScale xScale) true = Ok out.
Proof.
  intros Hy Hx Hmy Hmx.
  apply Z.mod_divide in Hmy; [|lia]. apply Z.mod_divide in Hmx; [|lia].
  destruct (divides_extent (- yScale) (shape0 mat) ltac:(lia) Hmy) as (n & Hn).
  destruct (divides_extent (- xScale) (shape1 mat) ltac:(lia) Hmx) as (m & Hm).
  destruct (scale_down_strict_spec mat (Z.to_nat (- yScale))
              (Z.to_nat (- xScale)) n m ltac:(lia) ltac:(lia) Hn Hm)
    as (out & Hout & _).
  rewrite <- !neg_factor_of_nat in Hout by assumption.
  now exists out.
Qed.

Lemma direction_raises (mat : ndarray) (yScale xScale : Z) (strict : bool) :
  mixed_sign yScale xScale \/ one_zero yScale xScale ->
  scaleMatrix mat (ScalePair yScale xScale) strict = Raise InvalidScaleDirection.
Proof.
  unfold mixed_sign, one_zero. intros Hcase.
  unfold scaleMatrix. cbn [unpack].
  destruct (Z.eqb_spec xScale 0), (Z.eqb_spec yScale 0),
    (Z.gtb_spec xScale 0), (Z.gtb_spec yScale 0),
    (Z.ltb_spec xScale 0), (Z.ltb_spec yScale 0);
    cbn [andb]; try reflexivity; lia.
Qed.

(* ================================================================== *)
(** * The claims of the design document *)

(** C1: the code on matrices whose padding differs between the axes. Rows
    padded by [yPad] dilute the last row of block means, columns padded by
    [xPad] the last column, and the docstring (lines 127-133) has the padded
    zeros left out of the means. On every non-empty matrix the code returns
    the block means of the padded matrix times [applied_factor], which
    rescales the last column by the row ratio and the last row by the column
    ratio: on a 5 x 4 matrix scaled by [(-3, -3)] ([yPad = 1], [xPad = 2])
    the cells [(0, 1)] and [(1, 0)] come out as 3/2 and 11 where the means
    of the real cells are 3 and 11/2; on the docstring's 4 x 4 matrix scaled
    by [(-3, -2)] ([yPad = 2], [xPad = 0]) cell [(0, 1)] is tripled though no
    column was padded, and cell [(1, 0)] is left diluted. *)
Theorem lenient_correction_swaps_axes :
  (forall (mat : ndarray) (yScale xScale : Z),
     1 <= shape0 mat -> 1 <= shape1 mat ->
     (yScale < 0)%Z -> (xScale < 0)%Z ->
     let yPad := lenient_pad (shape0 mat) (- yScale) in
     let xPad := lenient_pad (shape1 mat) (- xScale) in
     exists padded out,
       pad_zeros mat yPad xPad = Ok padded /\
       scaleMatrix mat (ScalePair yScale xScale) false = Ok out /\
       forall r c, r < shape0 out -> c < shape1 out ->
         item out r c
         == block_mean padded (Z.to_nat (- yScale)) (Z.to_nat (- xScale)) r c
            * applied_factor (shape0 out) (shape1 out) (- yScale) (- xScale)
                yPad xPad r c)
  /\ (lenient_pad (shape0 rows_5x4) 3 = 1%Z /\ lenient_pad (shape1 rows_5x4) 3 = 2%Z)
  /\ cells_of (scaleMatrix rows_5x4 (ScalePair (-3) (-3)) false)
     = Some [[23 # 9; 3 # 2]; [11; 17 # 2]]%Q
  /\ cells_of (mat <- pad_zeros rows_5x4 1 2 ;;
               out <- block_sums mat 3 3 ;;
               Ok (true_divide out (3 * 3)))
     = Some [[23 # 9; 1]; [11 # 3; 17 # 9]]%Q
  /\ grid 2 2 (applied_factor 2 2 3 3 1 2) = [[1; 3 # 2]; [3; 9 # 2]]%Q
  /\ grid 2 2 (documented_factor 2 2 3 3 1 2) = [[1; 3]; [3 # 2; 9 # 2]]%Q
  /\ grid 2 2 (real_block_mean rows_5x4 3 3)
     = [[23 # 9; 3]; [11 # 2; 17 # 2]]%Q
  /\ (lenient_pad (shape0 doc_4x4) 3 = 2%Z /\ lenient_pad (shape1 doc_4x4) 2 = 0%Z)
  /\ cells_of (scaleMatrix doc_4x4 (ScalePair (-3) (-2)) false)
     = Some [[7 # 3; 9]; [13 # 6; 17 # 2]]%Q
  /\ grid 2 2 (applied_factor 2 2 3 2 2 0) = [[1; 3]; [1; 3]]%Q
  /\ grid 2 2 (documented_factor 2 2 3 2 2 0) = [[1; 1]; [3; 1]]%Q
  /\ grid 2 2 (real_block_mean doc_4x4 3 2)
     = [[7 # 3; 3]; [13 # 2; 17 # 2]]%Q.
Proof.
  split; [|repeat split; vm_compute; reflexivity].
  intros mat yScale xScale Hrows Hcols Hy Hx yPad xPad.
  destruct (scaleMatrix_lenient_cells mat yScale xScale Hrows Hcols Hy Hx)
    as (padded & out & Hpad & Hout & _ & _ & _ & Hcells).
  exists padded, out. split; [exact Hpad|]. split; [exact Hout|].
  exact Hcells.
Qed.

Lemma lenient_correction_swaps_axes_witness :
  let yPad := lenient_pad (shape0 rows_5x4) (- (-3)) in
  let xPad := lenient_pad (shape1 rows_5x4) (- (-3)) in
  exists padded out,
    pad_zeros rows_5x4 yPad xPad = Ok padded /\
    scaleMatrix rows_5x4 (ScalePair (-3) (-3)) false = Ok out /\
    forall r c, r < shape0 out -> c < shape1 out ->
      item out r c
      == block_mean padded (Z.to_nat (- (-3))) (Z.to_nat (- (-3))) r c
         * applied_factor (shape0 out) (shape1 out) (- (-3)) (- (-3))
             yPad xPad r c.
Proof.
  apply (proj1 lenient_correction_swaps_axes rows_5x4 (-3) (-3))%Z; cbn; lia.
Defined.

(** C2: the code at [size = 0]. The docstring (lines 235-236) and the design
    document have the kernel applied to the 1 x 1 window of each cell; the
    code raises numpy's broadcast error on every matrix with two or more
    rows or columns, and on a 1 x 1 matrix it hands the kernel the edge
    value: [[5]] with edge value 0 and the centre-value kernel gives [[0]]. *)
Theorem kernel_radius_zero_loses_matrix :
  (forall (edgeValue : pynum) (outputType : option dtype) (passIndex : bool)
          (kernel : kernel_fn) (matrix : ndarray),
     2 <= shape0 matrix \/ 2 <= shape1 matrix ->
     KernelProcessor 0 edgeValue outputType passIndex kernel matrix
     = Raise (ValueError "could not broadcast input array"))
  /\ (forall (edgeValue : pynum) (outputType : option dtype) (passIndex : bool)
             (kernel : kernel_fn) (matrix : ndarray),
        shape0 matrix = 1 -> shape1 matrix = 1 ->
        exists out,
          KernelProcessor 0 edgeValue outputType passIndex kernel matrix = Ok out /\
          item out 0 0
          = astype (kernel_dtype outputType matrix)
              (kernel (tabulate (promote (dtype_of matrix) (num_kind edgeValue))
                         1 1 (fun _ _ => num_val edgeValue))
                      (kernel_index passIndex 0 0)))
  /\ KernelProcessor 0 (PyInt 0) None false center_value doc_2x2
     = Raise (ValueError "could not broadcast input array")
  /\ cells_of (KernelProcessor 0 (PyInt 0) None false center_value single_5)
     = Some [[0]]%Q
  /\ cells single_5 = [[5]]%Q.
Proof.
  split; [exact KernelProcessor_radius0_raises|].
  split; [|repeat split; reflexivity].
  intros edgeValue outputType passIndex kernel matrix H0 H1.
  destruct (KernelProcessor_radius0_single edgeValue outputType passIndex
              kernel matrix H0 H1) as (out & Hout & _ & Hit).
  exists out. split; assumption.
Qed.

Lemma kernel_radius_zero_loses_matrix_witness :
  KernelProcessor 0 (PyFloat (1 # 2)) (Some DFloat) true center_value doc_4x4
  = Raise (ValueError "could not broadcast input array")
  /\ exists out,
       KernelProcessor 0 (PyInt 0) None false center_value single_5 = Ok out /\
       item out 0 0
       = astype (kernel_dtype None single_5)
           (center_value
              (tabulate (promote (dtype_of single_5) (num_kind (PyInt 0)))
                 1 1 (fun _ _ => num_val (PyInt 0)))
              (kernel_index false 0 0)).
Proof.
  split.
  - apply (proj1 kernel_radius_zero_loses_matrix (PyFloat (1 # 2)) (Some DFloat)
             true center_value doc_4x4).
    left. cbn. lia.
  - apply (proj1 (proj2 kernel_radius_zero_loses_matrix) (PyInt 0) None false
             center_value single_5); reflexivity.
Defined.

(** C3, as the code has it. The call raises the "Dimensions must be scaled
    in the same direction" error exactly when the factors are neither both
    zero, nor both strictly positive, nor both strictly negative: one
    strictly positive and the other strictly negative, or exactly one of
    them zero. *)
Theorem direction_error_iff (mat : ndarray) (yScale xScale : Z) (strict : bool) :
  scaleMatrix mat (ScalePair yScale xScale) strict = Raise InvalidScaleDirection
  <-> mixed_sign yScale xScale \/ one_zero yScale xScale.
Proof.
  unfold mixed_sign, one_zero. split.
  - intros Hraise.
    destruct (Z.lt_trichotomy yScale 0) as [Hy|[Hy|Hy]];
      destruct (Z.lt_trichotomy xScale 0) as [Hx|[Hx|Hx]]; try lia.
    + exfalso. exact (scale_down_not_direction mat yScale xScale strict Hy Hx Hraise).
    + subst. cbn in Hraise. discriminate.
    + exfalso.
      destruct (scaleMatrix_up_spec mat yScale xScale strict Hy Hx)
        as (out & Hout & _).
      rewrite Hout in Hraise. discriminate.
  - intros Hcase. unfold scaleMatrix. cbn [unpack].
    destruct (Z.eqb_spec xScale 0), (Z.eqb_spec yScale 0),
      (Z.gtb_spec xScale 0), (Z.gtb_spec yScale 0),
      (Z.ltb_spec xScale 0), (Z.ltb_spec yScale 0);
      cbn [andb]; try reflexivity; lia.
Qed.

(** C3, as stated, fails: the pair [(0, 2)] has no strictly negative
    component, and the call raises the direction error. *)
Lemma direction_error_on_zero_component :
  scaleMatrix doc_2x2 (ScalePair 0 2) true = Raise InvalidScaleDirection
  /\ ~ mixed_sign 0 2
  /\ ~ (scaleMatrix doc_2x2 (ScalePair 0 2) true = Raise InvalidScaleDirection
        <-> mixed_sign 0 2).
Proof.
  assert (Hno : ~ mixed_sign 0 2) by (unfold mixed_sign; lia).
  split; [reflexivity|]. split; [exact Hno|].
  intros [Hto _]. apply Hno, Hto. reflexivity.
Qed.

(** C4. Scaling up by strictly positive factors [(yScale, xScale)] ends
    normally; the result has [rows * yScale] rows and [cols * xScale]
    columns, cell [(r, c)] holds input cell [(r // yScale, c // xScale)],
    and the element type is that of the input. *)
Theorem scale_up_replicates_blocks (mat : ndarray) (yScale xScale : Z)
    (strict : bool) :
  (0 < yScale)%Z -> (0 < xScale)%Z ->
  exists out,
    scaleMatrix mat (ScalePair yScale xScale) strict = Ok out /\
    shape0 out = shape0 mat * Z.to_nat yScale /\
    shape1 out = shape1 mat * Z.to_nat xScale /\
    dtype_of out = dtype_of mat /\
    forall r c, r < shape0 out -> c < shape1 out ->
      item out r c = item mat (r / Z.to_nat yScale) (c / Z.to_nat xScale).
Proof.
  intros Hy Hx.
  destruct (scale_up_spec mat (Z.to_nat yScale) (Z.to_nat xScale)
              ltac:(lia) ltac:(lia)) as (out & Hout & (Hd & H0 & H1) & Hcells).
  rewrite <- !factor_of_nat in Hout by assumption.
  exists out. unfold scaleMatrix. cbn [unpack].
  destruct (Z.eqb_spec xScale 0); [lia|]. cbn [andb].
  destruct (Z.gtb_spec xScale 0); [|lia].
  destruct (Z.gtb_spec yScale 0); [|lia]. cbn [andb].
  repeat (split; [assumption|]).
  intros r c Hr Hc. rewrite H0 in Hr. rewrite H1 in Hc. now apply Hcells.
Qed.

Lemma scale_up_replicates_blocks_witness :
  exists out,
    scaleMatrix doc_2x2 (ScalePair 2 3) true = Ok out /\
    shape0 out = shape0 doc_2x2 * Z.to_nat 2 /\
    shape1 out = shape1 doc_2x2 * Z.to_nat 3 /\
    dtype_of out = dtype_of doc_2x2 /\
    forall r c, r < shape0 out -> c < shape1 out ->
      item out r c = item doc_2x2 (r / Z.to_nat 2) (c / Z.to_nat 3).
Proof.
  apply (scale_up_replicates_blocks doc_2x2 2 3 true); reflexivity.
Defined.



(** C6. With negative factors and [strict=True] the call raises the
    "Matrix can only be scaled down by a factor of it's dimensions" error
    exactly when the absolute row factor does not divide the number of rows
    or the absolute column factor does not divide the number of columns; so
    every matrix of 4 rows scaled by [(-3, -1)] raises it. *)
Theorem strict_raises_iff_not_factor :
  (forall (mat : ndarray) (yScale xScale : Z),
     (yScale < 0)%Z -> (xScale < 0)%Z ->
     (scaleMatrix mat (ScalePair yScale xScale) true = Raise NonFactorScaleError
      <-> ~ ((- yScale | Z.of_nat (shape0 mat))%Z
             /\ (- xScale | Z.of_nat (shape1 mat))%Z)))
  /\ (forall mat : ndarray,
        shape0 mat = 4 ->
        scaleMatrix mat (ScalePair (-3) (-1)) true = Raise NonFactorScaleError).
Proof.
  assert (Hraise : forall mat yScale xScale,
    (yScale < 0)%Z -> (xScale < 0)%Z ->
    ~ ((- yScale | Z.of_nat (shape0 mat))%Z
       /\ (- xScale | Z.of_nat (shape1 mat))%Z) ->
    scaleMatrix mat (ScalePair yScale xScale) true = Raise NonFactorScaleError).
  { intros mat yScale xScale Hy Hx Hnd. unfold scaleMatrix. cbn [unpack].
    destruct (Z.eqb_spec xScale 0); [lia|]. cbn [andb].
    destruct (Z.gtb_spec xScale 0); [lia|]. cbn [andb].
    destruct (Z.ltb_spec xScale 0); [|lia].
    destruct (Z.ltb_spec yScale 0); [|lia]. cbn [andb].
    replace (-1 * yScale)%Z with (- yScale)%Z by lia.
    replace (-1 * xScale)%Z with (- xScale)%Z by lia.
    destruct (Z.eqb_spec (Z.of_nat (shape0 mat) mod - yScale) 0) as [Ey|Ey];
      destruct (Z.eqb_spec (Z.of_nat (shape1 mat) mod - xScale) 0) as [Ex|Ex];
      cbn [andb negb bind]; try reflexivity.
    exfalso. apply Hnd. split; apply Z.mod_divide; (lia || assumption). }
  split.
  - intros mat yScale xScale Hy Hx. split; [|apply Hraise; assumption].
    intros Hr [Hdy Hdx].
    destruct (divides_extent (- yScale) (shape0 mat) ltac:(lia) Hdy) as (n & Hn).
    destruct (divides_extent (- xScale) (shape1 mat) ltac:(lia) Hdx) as (m & Hm).
    destruct (scale_down_strict_spec mat (Z.to_nat (- yScale))
                (Z.to_nat (- xScale)) n m ltac:(lia) ltac:(lia) Hn Hm)
      as (out & Hout & _).
    rewrite <- !neg_factor_of_nat in Hout by assumption.
    rewrite Hout in Hr. discriminate.
  - intros mat H4. apply Hraise; try lia.
    intros [[k Hk] _]. rewrite H4 in Hk. cbn in Hk. lia.
Qed.

Lemma strict_raises_iff_not_factor_witness :
  (scaleMatrix doc_4x4 (ScalePair (-3) (-2)) true = Raise NonFactorScaleError
   <-> ~ ((- (-3) | Z.of_nat (shape0 doc_4x4))%Z
          /\ (- (-2) | Z.of_nat (shape1 doc_4x4))%Z))
  /\ scaleMatrix doc_4x4 (ScalePair (-3) (-1)) true = Raise NonFactorScaleError.
Proof.
  split.
  - apply (proj1 strict_raises_iff_not_factor doc_4x4 (-3) (-2))%Z; reflexivity.
  - apply (proj2 strict_raises_iff_not_factor doc_4x4). reflexivity.
Defined.







(** C10. When the absolute factors divide the extents, lenient down-scaling
    is strict down-scaling: both pads are 0, nothing is appended to the
    matrix, no boundary cell is rescaled, and the two calls return the same
    matrix. *)
Theorem lenient_equals_strict_on_factors (mat : ndarray) (yScale xScale : Z) :
  (yScale < 0)%Z -> (xScale < 0)%Z ->
  (- yScale | Z.of_nat (shape0 mat))%Z ->
  (- xScale | Z.of_nat (shape1 mat))%Z ->
  lenient_pad (shape0 mat) (- yScale) = 0%Z /\
  lenient_pad (shape1 mat) (- xScale) = 0%Z /\
  pad_zeros mat 0 0 = Ok mat /\
  (forall out, correct_edges out (- yScale) (- xScale) 0 0 = Ok out) /\
  exists out,
    scaleMatrix mat (ScalePair yScale xScale) true = Ok out /\
    scaleMatrix mat (ScalePair yScale xScale) false = Ok out.
Proof.
  intros Hy Hx Hdy Hdx.
  assert (Hmy : (Z.of_nat (shape0 mat) mod - yScale = 0)%Z)
    by (apply Z.mod_divide; [lia|assumption]).
  assert (Hmx : (Z.of_nat (shape1 mat) mod - xScale = 0)%Z)
    by (apply Z.mod_divide; [lia|assumption]).
  assert (Hpy := lenient_pad_divides (shape0 mat) (- yScale) ltac:(lia) Hmy).
  assert (Hpx := lenient_pad_divides (shape1 mat) (- xScale) ltac:(lia) Hmx).
  split; [exact Hpy|]. split; [exact Hpx|]. split; [reflexivity|].
  split; [intros out; reflexivity|].
  destruct (divides_extent (- yScale) (shape0 mat) ltac:(lia) Hdy) as (n & Hn).
  destruct (divides_extent (- xScale) (shape1 mat) ltac:(lia) Hdx) as (m & Hm).
  destruct (scale_down_strict_spec mat (Z.to_nat (- yScale))
              (Z.to_nat (- xScale)) n m ltac:(lia) ltac:(lia) Hn Hm)
    as (out & Hout & _).
  rewrite <- !neg_factor_of_nat in Hout by assumption.
  exists out. split; [exact Hout|]. rewrite <- Hout.
  unfold scaleMatrix. cbn [unpack].
  destruct (Z.eqb_spec xScale 0); [lia|]. cbn [andb].
  destruct (Z.gtb_spec xScale 0); [lia|]. cbn [andb].
  destruct (Z.ltb_spec xScale 0); [|lia].
  destruct (Z.ltb_spec yScale 0); [|lia]. cbn [andb].
  replace (-1 * yScale)%Z with (- yScale)%Z by lia.
  replace (-1 * xScale)%Z with (- xScale)%Z by lia.
  rewrite Hpy, Hpx, Hmy, Hmx. reflexivity.
Qed.

Lemma lenient_equals_strict_on_factors_witness :
  lenient_pad (shape0 doc_4x4) (- (-2)) = 0%Z /\
  lenient_pad (shape1 doc_4x4) (- (-4)) = 0%Z /\
  pad_zeros doc_4x4 0 0 = Ok doc_4x4 /\
  (forall out, correct_edges out (- (-2)) (- (-4)) 0 0 = Ok out) /\
  exists out,
    scaleMatrix doc_4x4 (ScalePair (-2) (-4)) true = Ok out /\
    scaleMatrix doc_4x4 (ScalePair (-2) (-4)) false = Ok out.
Proof.
  apply (lenient_equals_strict_on_factors doc_4x4 (-2) (-4));
    [reflexivity|reflexivity|exists 2%Z; reflexivity|exists 1%Z; reflexivity].
Defined.

(* ================================================================== *)
(** * Further properties of the code *)

(** X1. Scaling up twice is scaling up once by the products of the factors:
    up by [(a, b)] and then by [(c, d)] gives the extents, the element type
    and the cells of up by [(a * c, b * d)]. *)
Theorem scale_up_composes (mat : ndarray) (a b c d : Z) (s1 s2 s3 : bool) :
  (0 < a)%Z -> (0 < b)%Z -> (0 < c)%Z -> (0 < d)%Z ->
  exists o1 o2 o12,
    scaleMatrix mat (ScalePair a b) s1 = Ok o1 /\
    scaleMatrix o1 (ScalePair c d) s2 = Ok o2 /\
    scaleMatrix mat (ScalePair (a * c) (b * d)) s3 = Ok o12 /\
    dtype_of o2 = dtype_of o12 /\
    shape0 o2 = shape0 o12 /\ shape1 o2 = shape1 o12 /\
    forall r k, r < shape0 o2 -> k < shape1 o2 -> item o2 r k = item o12 r k.
Proof.
  intros Ha Hb Hc Hd.
  destruct (scaleMatrix_up_spec mat a b s1 Ha Hb)
    as (o1 & Ho1 & H10 & H11 & H1d & H1c).
  destruct (scaleMatrix_up_spec o1 c d s2 Hc Hd)
    as (o2 & Ho2 & H20 & H21 & H2d & H2c).
  destruct (scaleMatrix_up_spec mat (a * c) (b * d) s3 ltac:(lia) ltac:(lia))
    as (o12 & Ho12 & H30 & H31 & H3d & H3c).
  assert (Eac : Z.to_nat (a * c) = Z.to_nat a * Z.to_nat c)
    by (apply Z2Nat.inj_mul; lia).
  assert (Ebd : Z.to_nat (b * d) = Z.to_nat b * Z.to_nat d)
    by (apply Z2Nat.inj_mul; lia).
  rewrite Eac in H30. rewrite Ebd in H31.
  setoid_rewrite Eac in H3c. setoid_rewrite Ebd in H3c.
  exists o1, o2, o12.
  split; [exact Ho1|]. split; [exact Ho2|]. split; [exact Ho12|].
  split; [congruence|].
  split; [rewrite H20, H10, H30; lia|].
  split; [rewrite H21, H11, H31; lia|].
  intros r k Hr Hk.
  rewrite H2c, H1c, H3c by
    (try assumption; try lia;
     rewrite ?H10, ?H11; apply Nat.Div0.div_lt_upper_bound; nia).
  rewrite !Nat.Div0.div_div.
  f_equal; f_equal; apply Nat.mul_comm.
Qed.

Lemma scale_up_composes_witness :
  exists o1 o2 o12,
    scaleMatrix doc_2x2 (ScalePair 2 1) true = Ok o1 /\
    scaleMatrix o1 (ScalePair 3 2) true = Ok o2 /\
    scaleMatrix doc_2x2 (ScalePair (2 * 3) (1 * 2)) true = Ok o12 /\
    dtype_of o2 = dtype_of o12 /\
    shape0 o2 = shape0 o12 /\ shape1 o2 = shape1 o12 /\
    forall r k, r < shape0 o2 -> k < shape1 o2 -> item o2 r k = item o12 r k.
Proof.
  apply (scale_up_composes doc_2x2 2 1 3 2 true true true); reflexivity.
Defined.





(** X4. Scaling up multiplies the sum of the cells by the number of copies
    of each cell, [yScale * xScale]: the mean of the matrix is kept. *)
Theorem scale_up_keeps_mean (mat : ndarray) (yScale xScale : Z) (strict : bool) :
  (0 < yScale)%Z -> (0 < xScale)%Z ->
  exists out,
    scaleMatrix mat (ScalePair yScale xScale) strict = Ok out /\
    matrix_total out == inject_Z (yScale * xScale) * matrix_total mat.
Proof.
  intros Hy Hx.
  destruct (scaleMatrix_up_spec mat yScale xScale strict Hy Hx)
    as (out & Hout & H0 & H1 & _ & Hcells).
  exists out. split; [exact Hout|].
  set (ys := Z.to_nat yScale) in *. set (xs := Z.to_nat xScale) in *.
  assert (Hys : 0 < ys) by (subst ys; lia).
  assert (Hxs : 0 < xs) by (subst xs; lia).
  replace yScale with (Z.of_nat ys) by (subst ys; lia).
  replace xScale with (Z.of_nat xs) by (subst xs; lia).
  unfold matrix_total. rewrite H0, H1, total_by_blocks.
  rewrite <- Qsum_upto_scale. apply Qsum_upto_ext. intros r Hr.
  rewrite <- Qsum_upto_scale. apply Qsum_upto_ext. intros c Hc.
  rewrite (Qsum_upto_ext ys _
             (fun _ => (inject_Z (Z.of_nat xs) * item mat r c)%Q)).
  - rewrite Qsum_upto_const, inject_Z_mult. ring.
  - intros yo Hyo.
    rewrite (Qsum_upto_ext xs _ (fun _ => item mat r c)).
    + apply Qsum_upto_const.
    + intros xo Hxo. rewrite Hcells by (rewrite ?H0, ?H1; nia).
      replace ((yo + r * ys) / ys) with r
        by (apply Nat.div_unique with yo; lia).
      replace ((xo + c * xs) / xs) with c
        by (apply Nat.div_unique with xo; lia).
      reflexivity.
Qed.

Lemma scale_up_keeps_mean_witness :
  exists out,
    scaleMatrix doc_2x2 (ScalePair 2 3) true = Ok out /\
    matrix_total out == inject_Z (2 * 3) * matrix_total doc_2x2.
Proof.
  apply (scale_up_keeps_mean doc_2x2 2 3 true); reflexivity.
Defined.



(** X6. Lenient down-scaling of a matrix with at least one row and one
    column never fails, whatever the negative factors: the result is a float
    matrix of [ceil(rows / yScale)] rows and [ceil(cols / xScale)]
    columns. *)
Theorem lenient_shape_is_ceiling (mat : ndarray) (ys xs : nat) :
  0 < ys -> 0 < xs -> 1 <= shape0 mat -> 1 <= shape1 mat ->
  exists out,
    scaleMatrix mat (ScalePair (- Z.of_nat ys) (- Z.of_nat xs)) false = Ok out /\
    dtype_of out = DFloat /\
    shape0 out = ceil_div (shape0 mat) ys /\
    shape1 out = ceil_div (shape1 mat) xs.
Proof.
  intros Hys Hxs Hrows Hcols.
  destruct (scale_down_lenient_real mat ys xs Hys Hxs Hrows Hcols)
    as (n & m & out & Hyb & Hxb & Hn & Hm & Hout & (Hd & H0 & H1) & _).
  exists out. split; [exact Hout|]. split; [exact Hd|].
  rewrite H0, H1. split.
  - exact (padded_extent_ceil _ ys n _ Hys Hyb Hn).
  - exact (padded_extent_ceil _ xs m _ Hxs Hxb Hm).
Qed.

Lemma lenient_shape_is_ceiling_witness :
  exists out,
    scaleMatrix rows_5x4 (ScalePair (- Z.of_nat 3) (- Z.of_nat 2)) false = Ok out /\
    dtype_of out = DFloat /\
    shape0 out = ceil_div (shape0 rows_5x4) 3 /\
    shape1 out = ceil_div (shape1 rows_5x4) 2.
Proof.
  apply (lenient_shape_is_ceiling rows_5x4 3 2); cbn; lia.
Defined.





(** X9. Lenient down-scaling of an empty matrix fails where padding is
    needed: with no row and a column count the factor does not divide,
    line 218 indexes row -1 of a result without rows; with no column and a
    row count the factor does not divide, line 217 indexes column -1 of a
    result without columns. Both raise Python's IndexError. *)
Theorem lenient_empty_matrix_index_error (mat : ndarray) (ys xs : nat) :
  0 < ys -> 0 < xs ->
  (shape0 mat = 0 /\ shape1 mat mod xs <> 0)
  \/ (shape1 mat = 0 /\ shape0 mat mod ys <> 0) ->
  scaleMatrix mat (ScalePair (- Z.of_nat ys) (- Z.of_nat xs)) false
  = Raise (IndexError "index is out of bounds").
Proof.
  intros Hys Hxs Hcase.
  destruct (lenient_before_correction mat ys xs Hys Hxs)
    as (n & m & avg & Hn & Hm & (Hd & H0 & H1) & Hcall).
  rewrite Hcall. unfold correct_edges.
  destruct Hcase as [[Hrows Hcols]|[Hcols Hrows]].
  - rewrite Hrows, lenient_pad_empty in * by assumption.
    cbn [Z.gtb Z.compare bind].
    destruct (lenient_pad_positive (shape1 mat) xs Hxs Hcols) as [Hp Hlt].
    destruct (Z.gtb_spec (lenient_pad (shape1 mat) (Z.of_nat xs)) 0); [|lia].
    rewrite py_div_ok by lia. cbn [bind].
    assert (En : n = 0) by (cbn in Hn; nia). rewrite H0, En. reflexivity.
  - rewrite Hcols in Hm. rewrite (lenient_pad_empty xs Hxs) in Hm.
    destruct (lenient_pad_positive (shape0 mat) ys Hys Hrows) as [Hp Hlt].
    destruct (Z.gtb_spec (lenient_pad (shape0 mat) (Z.of_nat ys)) 0); [|lia].
    rewrite py_div_ok by lia. cbn [bind].
    assert (Em : m = 0) by (cbn in Hm; nia). rewrite H1, Em. reflexivity.
Qed.

Lemma lenient_empty_matrix_index_error_witness :
  scaleMatrix (np_zeros 0 3 DFloat) (ScalePair (- Z.of_nat 2) (- Z.of_nat 2)) false
  = Raise (IndexError "index is out of bounds").
Proof.
  apply (lenient_empty_matrix_index_error (np_zeros 0 3 DFloat) 2 2);
    [lia|lia|].
  left. split; [reflexivity|]. cbn. lia.
Defined.





(** X12. [drawImage] with a negative [scaling] never fails on a matrix with
    at least one row and one column, whatever its extents: it draws a matrix
    of [ceil(rows / s)] x [ceil(cols / s)] cells over the same extent as
    without scaling, the extent being taken from [bounds] or from the
    extents of the unscaled matrix. *)
Theorem drawImage_scaled_down_keeps_extent (data : ndarray)
    (bounds : option bounds_arg) (s : nat) (yAtTop : bool) :
  0 < s -> 1 <= shape0 data -> 1 <= shape1 data ->
  exists img plain extent,
    drawImage_args data bounds (Some (ScaleInt (- Z.of_nat s))) yAtTop
    = Ok (img, extent) /\
    drawImage_args data bounds None yAtTop = Ok (plain, extent) /\
    shape0 img = ceil_div (shape0 data) s /\
    shape1 img = ceil_div (shape1 data) s /\
    shape0 plain = shape0 data /\ shape1 plain = shape1 data.
Proof.
  intros Hs Hrows Hcols.
  set (shown := if yAtTop then data else reverse_rows data).
  assert (Hsh : shape0 shown = shape0 data /\ shape1 shown = shape1 data)
    by (subst shown; now destruct yAtTop).
  destruct Hsh as [Hs0 Hs1].
  destruct (scale_down_lenient_real shown s s Hs Hs ltac:(lia) ltac:(lia))
    as (n & m & img & Hyb & Hxb & Hn & Hm & Himg & (_ & H0 & H1) & _).
  exists img, shown.
  unfold drawImage_args.
  destruct bounds as [[[[[xMin yMin] xMax] yMax]|[[[xMin yMin] xMax] yMax]]|];
    (eexists; fold shown;
     change (truthy (Some (ScaleInt (- Z.of_nat s))))
       with (negb (- Z.of_nat s =? 0)%Z);
     destruct (Z.eqb_spec (- Z.of_nat s) 0); [lia|]; cbn [negb];
     change (scaleMatrix shown (ScaleInt (- Z.of_nat s)) false)
       with (scaleMatrix shown (ScalePair (- Z.of_nat s) (- Z.of_nat s)) false);
     rewrite Himg; cbn [bind];
     split; [reflexivity|]; split; [reflexivity|];
     rewrite H0, H1, <- Hs0, <- Hs1;
     split; [exact (padded_extent_ceil _ s n _ Hs Hyb Hn)|];
     split; [exact (padded_extent_ceil _ s m _ Hs Hxb Hm)|];
     split; reflexivity).
Qed.

Lemma drawImage_scaled_down_keeps_extent_witness :
  exists img plain extent,
    drawImage_args rows_5x4 None (Some (ScaleInt (- Z.of_nat 3))) false
    = Ok (img, extent) /\
    drawImage_args rows_5x4 None None false = Ok (plain, extent) /\
    shape0 img = ceil_div (shape0 rows_5x4) 3 /\
    shape1 img = ceil_div (shape1 rows_5x4) 3 /\
    shape0 plain = shape0 rows_5x4 /\ shape1 plain = shape1 rows_5x4.
Proof.
  apply (drawImage_scaled_down_keeps_extent rows_5x4 None 3 false); cbn; lia.
Defined.



(** X14. On a dataset that answers [GetLayerCount()] with a count [n >= 0]
    the two tests are complementary: [isVector] is true exactly when
    [n > 0] and [isRaster] exactly when [n = 0]. When [GetLayerCount()]
    raises, [isVector] lets the exception through and [isRaster] answers
    False; on a string for which no driver is found both end in the
    AttributeError of [None.GetMetadata()], and neither answers False. *)
Theorem isVector_isRaster_on_sources :
  (forall n : Z, (0 <= n)%Z ->
     isVector (Dataset (Ok n)) = Returns (0 <? n)%Z /\
     isRaster (Dataset (Ok n)) = Returns (negb (0 <? n)%Z))
  /\ (forall e : exn,
        isVector (Dataset (Raise e)) = Propagates e /\
        isRaster (Dataset (Raise e)) = Returns false)
  /\ (isVector (PathStr None) = NoneType_GetMetadata /\
      isRaster (PathStr None) = NoneType_GetMetadata).
Proof.
  split; [|split; [intros e|]; split; reflexivity].
  intros n Hn. cbn [isVector isRaster].
  destruct (Z.gtb_spec n 0), (Z.ltb_spec 0 n), (Z.eqb_spec n 0);
    try lia; split; reflexivity.
Qed.

Lemma isVector_isRaster_on_sources_witness :
  isVector (Dataset (Ok 2%Z)) = Returns (0 <? 2)%Z /\
  isRaster (Dataset (Ok 2%Z)) = Returns (negb (0 <? 2)%Z).
Proof.
  apply (proj1 isVector_isRaster_on_sources 2%Z). lia.
Defined.

(** X15. On a matrix with at least one row and one column, [scaleMatrix]
    ends in one of three ways, whatever the scale (one integer or a pair)
    and the mode: it returns a matrix, or it raises its own error for a
    strict down-scaling by a factor that does not divide, or its own error
    for factors of different directions. No IndexError, ValueError,
    TypeError or ZeroDivisionError of Python or numpy comes out. *)
Theorem scaleMatrix_outcomes (mat : ndarray) (scale : scale_arg) (strict : bool) :
  1 <= shape0 mat -> 1 <= shape1 mat ->
  let yScale := fst (unpack scale) in
  let xScale := snd (unpack scale) in
  (exists out, scaleMatrix mat scale strict = Ok out)
  \/ (scaleMatrix mat scale strict = Raise NonFactorScaleError
      /\ strict = true /\ (yScale < 0)%Z /\ (xScale < 0)%Z
      /\ ~ ((- yScale | Z.of_nat (shape0 mat))%Z
            /\ (- xScale | Z.of_nat (shape1 mat))%Z))
  \/ (scaleMatrix mat scale strict = Raise InvalidScaleDirection
      /\ (mixed_sign yScale xScale \/ one_zero yScale xScale)).
Proof.
  intros Hrows Hcols yScale xScale.
  assert (Hpair : scaleMatrix mat scale strict
                  = scaleMatrix mat (ScalePair yScale xScale) strict)
    by (subst yScale xScale; now destruct scale).
  rewrite Hpair. clear Hpair.
  destruct (Z.lt_trichotomy yScale 0) as [Hy|[Hy|Hy]];
    destruct (Z.lt_trichotomy xScale 0) as [Hx|[Hx|Hx]].
  - destruct strict.
    + destruct (Z.eq_dec (Z.of_nat (shape0 mat) mod - yScale) 0) as [Ey|Ey];
        [destruct (Z.eq_dec (Z.of_nat (shape1 mat) mod - xScale) 0) as [Ex|Ex]|].
      * left. now apply strict_factor_returns.
      * right. left. split; [apply strict_not_factor_raises; auto|].
        repeat (split; [assumption || reflexivity|]).
        intros [_ Hd]. apply Ex. apply Z.mod_divide; [lia|exact Hd].
      * right. left. split; [apply strict_not_factor_raises; auto|].
        repeat (split; [assumption || reflexivity|]).
        intros [Hd _]. apply Ey. apply Z.mod_divide; [lia|exact Hd].
    + left.
      destruct (scale_down_lenient_spec mat (Z.to_nat (- yScale))
                  (Z.to_nat (- xScale)) ltac:(lia) ltac:(lia) Hrows Hcols)
        as (n & m & mat' & out & _ & _ & _ & _ & _ & Hout & _).
      rewrite <- !neg_factor_of_nat in Hout by assumption.
      now exists out.
  - right. right. assert (Hc : mixed_sign yScale xScale \/ one_zero yScale xScale)
      by (unfold mixed_sign, one_zero; lia).
    split; [now apply direction_raises|exact Hc].
  - right. right. assert (Hc : mixed_sign yScale xScale \/ one_zero yScale xScale)
      by (unfold mixed_sign, one_zero; lia).
    split; [now apply direction_raises|exact Hc].
  - right. right. assert (Hc : mixed_sign yScale xScale \/ one_zero yScale xScale)
      by (unfold mixed_sign, one_zero; lia).
    split; [now apply direction_raises|exact Hc].
  - left. exists mat. rewrite Hy, Hx. reflexivity.
  - right. right. assert (Hc : mixed_sign yScale xScale \/ one_zero yScale xScale)
      by (unfold mixed_sign, one_zero; lia).
    split; [now apply direction_raises|exact Hc].
  - right. right. assert (Hc : mixed_sign yScale xScale \/ one_zero yScale xScale)
      by (unfold mixed_sign, one_zero; lia).
    split; [now apply direction_raises|exact Hc].
  - right. right. assert (Hc : mixed_sign yScale xScale \/ one_zero yScale xScale)
      by (unfold mixed_sign, one_zero; lia).
    split; [now apply direction_raises|exact Hc].
  - left. destruct (scaleMatrix_up_spec mat yScale xScale strict
                      ltac:(lia) ltac:(lia)) as (out & Hout & _).
    now exists out.
Qed.

Lemma scaleMatrix_outcomes_witness :
  let yScale := fst (unpack (ScaleInt (-3))) in
  let xScale := snd (unpack (ScaleInt (-3))) in
  (exists out, scaleMatrix doc_4x4 (ScaleInt (-3)) true = Ok out)
  \/ (scaleMatrix doc_4x4 (ScaleInt (-3)) true = Raise NonFactorScaleError
      /\ true = true /\ (yScale < 0)%Z /\ (xScale < 0)%Z
      /\ ~ ((- yScale | Z.of_nat (shape0 doc_4x4))%Z
            /\ (- xScale | Z.of_nat (shape1 doc_4x4))%Z))
  \/ (scaleMatrix doc_4x4 (ScaleInt (-3)) true = Raise InvalidScaleDirection
      /\ (mixed_sign yScale xScale \/ one_zero yScale xScale)).
Proof.
  apply (scaleMatrix_outcomes doc_4x4 (ScaleInt (-3)) true); cbn; lia.
Defined.
